(** * Transport bootstrap and channel adaptation of vscode-jsonrpc (node entry)

    A shallow embedding of [jsonrpc/src/node/main.ts] and of
    [createProtocolConnection] from [protocol/src/common/connection.ts]:
    the process-backed reader and writer, the socket-backed writer, the pipe
    name generator, the four transport entry points and the connection
    factory.  Node's own objects (event emitters, [net.Server], [net.Socket],
    promises) appear as small explicit models next to the code that uses
    them. *)

From Stdlib Require Import List String Ascii Bool Arith ZArith Lia.
Import ListNotations.
Local Open Scope string_scope.
Local Open Scope list_scope.
#[local] Set Warnings "-register-all".

(* ===================================================================== *)
(** ** JavaScript values, promises and event emitters *)
(* ===================================================================== *)

Module JS.

(** Values of type [any]: enough structure for truthiness tests and for
    member probing. *)
Inductive value : Type :=
| VUndefined
| VNull
| VBool (b : bool)
| VNumber (n : Z)
| VString (s : string)
| VFunction (name : string)
| VObject (members : list (string * value)).

(** [if (v)] and [!v]. *)
Definition truthy (v : value) : bool :=
  match v with
  | VUndefined | VNull => false
  | VBool b => b
  | VNumber n => negb (n =? 0)%Z
  | VString s => negb (s =? "")
  | VFunction _ | VObject _ => true
  end.

Fixpoint lookup (k : string) (ms : list (string * value)) : value :=
  match ms with
  | [] => VUndefined
  | (k', v) :: rest => if k' =? k then v else lookup k rest
  end.

(** Outcome of an expression that may throw. *)
Inductive result (A : Type) : Type :=
| Ok (a : A)
| Throw (error : value).
Arguments Ok {A} a.
Arguments Throw {A} error.

Definition TypeError : value := VObject [("name", VString "TypeError")].

(** [v.k]: reading a member of [undefined] or [null] throws, a missing
    member reads as [undefined]. *)
Definition member (v : value) (k : string) : result value :=
  match v with
  | VUndefined | VNull => Throw TypeError
  | VObject ms => Ok (lookup k ms)
  | _ => Ok VUndefined
  end.

(** [v == null]: the two values without members. *)
Definition nullish (v : value) : bool :=
  match v with VUndefined | VNull => true | _ => false end.

(** What [v.k] reads when it does not throw. *)
Definition get (v : value) (k : string) : value :=
  match v with
  | VObject ms => lookup k ms
  | _ => VUndefined
  end.

(** [v === undefined]. *)
Definition is_undefined (v : value) : bool :=
  match v with VUndefined => true | _ => false end.

(** [typeof v === 'function']. *)
Definition is_function (v : value) : bool :=
  match v with VFunction _ => true | _ => false end.

(** A promise settles once; later calls of its resolving functions are
    ignored. *)
Inductive promise (A : Type) : Type :=
| Pending
| Fulfilled (a : A)
| Rejected (reason : value).
Arguments Pending {A}.
Arguments Fulfilled {A} a.
Arguments Rejected {A} reason.

Definition resolve {A} (a : A) (p : promise A) : promise A :=
  match p with Pending => Fulfilled a | _ => p end.

Definition reject {A} (reason : value) (p : promise A) : promise A :=
  match p with Pending => Rejected reason | _ => p end.

Definition is_rejected {A} (p : promise A) : bool :=
  match p with Rejected _ => true | _ => false end.

(** An event emitter is the list of its registrations, oldest first. *)
Section Emitter.
Context {L : Type}.

Definition emitter := list (string * L).

Definition on (name : string) (l : L) (em : emitter) : emitter :=
  em ++ [(name, l)].

Definition listeners (name : string) (em : emitter) : list L :=
  map snd (filter (fun r => fst r =? name) em).

Variable same : L -> L -> bool.

(** [removeListener] drops one registration of the listener, the most
    recently added one. *)
Fixpoint remove_first (name : string) (l : L) (em : emitter) : emitter :=
  match em with
  | [] => []
  | (n, l') :: rest =>
      if (n =? name) && same l' l then rest
      else (n, l') :: remove_first name l rest
  end.

Definition removeListener (name : string) (l : L) (em : emitter) : emitter :=
  rev (remove_first name l (rev em)).
End Emitter.
Arguments emitter L : clear implicits.

End JS.

(* ===================================================================== *)
(** ** Process-backed channel: [IPCMessageReader], [IPCMessageWriter] *)
(* ===================================================================== *)

Module IPC.
Import JS.

(** Calls of the inherited [fireError(error, message?, count?)] and
    [fireClose()], recorded with their arguments. *)
Inductive notification : Type :=
| FireError (error : value) (message : option value) (count : option nat)
| FireClose.

Inductive channel : Type := Reader | Writer.

(** What the runtime's [send] does with a message when it is called:
    throw at once, or take the message and report through the completion
    callback later. *)
Inductive send_outcome : Type :=
| SendThrows (error : value)
| SendQueued.

(** The endpoint: [send] is absent on a process started without an IPC
    channel. *)
Record Process : Type := { send : option (value -> send_outcome) }.

(** A listener registered on the endpoint: what it fires, and on whose
    behalf, when the native event arrives with its payload. *)
Definition listener : Type := value -> list (channel * notification).

(** *** Reader *)

Record IPCMessageReader : Type := { reader_process : Process }.

(** [(error) => this.fireError(error)] *)
Definition reader_on_error : listener :=
  fun error => [(Reader, FireError error None None)].

(** [() => this.fireClose()] *)
Definition reader_on_close : listener :=
  fun _ => [(Reader, FireClose)].

Definition IPCMessageReader_new (process : Process) (eventEmitter : emitter listener)
  : IPCMessageReader * emitter listener :=
  ({| reader_process := process |},
   on "close" reader_on_close (on "error" reader_on_error eventEmitter)).

(** [listen(callback)] subscribes the callback to ['message']. *)
Definition reader_listen (callback : listener) (eventEmitter : emitter listener)
  : emitter listener :=
  on "message" callback eventEmitter.

(** *** Writer *)

Record IPCMessageWriter : Type :=
  { process : Process;
    errorCount : nat }.

Inductive effect : Type :=
| NativeSend (msg : value)
| Notify (n : notification).

(** Method bodies run over the writer's fields, log their effects and may
    throw. *)
Definition M (A : Type) : Type :=
  IPCMessageWriter -> result A * IPCMessageWriter * list effect.

Definition ret {A} (a : A) : M A := fun w => (Ok a, w, []).

Definition bind {A B} (m : M A) (k : A -> M B) : M B :=
  fun w =>
    match m w with
    | (Ok a, w1, t1) => let '(r, w2, t2) := k a w1 in (r, w2, t1 ++ t2)
    | (Throw e, w1, t1) => (Throw e, w1, t1)
    end.

Definition throw {A} (e : value) : M A := fun w => (Throw e, w, []).

Definition try_catch {A} (body : M A) (handler : value -> M A) : M A :=
  fun w =>
    match body w with
    | (Ok a, w1, t1) => (Ok a, w1, t1)
    | (Throw e, w1, t1) => let '(r, w2, t2) := handler e w1 in (r, w2, t1 ++ t2)
    end.

Definition emit (e : effect) : M unit := fun w => (Ok tt, w, [e]).

Definition get_errorCount : M nat := fun w => (Ok (errorCount w), w, []).

Definition set_errorCount (n : nat) : M unit :=
  fun w => (Ok tt, {| process := process w; errorCount := n |}, []).

Definition get_process : M Process := fun w => (Ok (process w), w, []).

Notation "x <- m ;; k" := (bind m (fun x => k))
  (at level 61, m at next level, right associativity).
Notation "m ;;; k" := (bind m (fun _ => k))
  (at level 61, right associativity).

(** [this.errorCount++] *)
Definition incr_errorCount : M unit :=
  n <- get_errorCount ;; set_errorCount (S n).

(** [this.fireError(error, msg, count)] *)
Definition fireError (error msg : value) (count : nat) : M unit :=
  emit (Notify (FireError error (Some msg) (Some count))).

Definition handleError (error msg : value) : M unit :=
  incr_errorCount ;;;
  n <- get_errorCount ;;
  fireError error msg n.

(** The completion callback handed to [send]:
    [(error) => { if (error) { this.errorCount++; this.handleError(error, msg); }
                  else { this.errorCount = 0; } }] *)
Definition send_callback (msg error : value) : M unit :=
  if truthy error then
    incr_errorCount ;;;
    handleError error msg
  else
    set_errorCount 0.

(** The native call [send(msg, undefined, undefined, callback)]. *)
Definition native_send (f : value -> send_outcome) (msg : value) : M unit :=
  emit (NativeSend msg) ;;;
  match f msg with
  | SendThrows e => throw e
  | SendQueued => ret tt
  end.

(** [write(msg)]; the value returned is the promise handed to the caller,
    already settled. *)
Definition write (msg : value) : M (promise unit) :=
  try_catch
    (p <- get_process ;;
     match send p with
     | Some f => native_send f msg
     | None => ret tt
     end ;;;
     ret (Fulfilled tt))
    (fun error =>
       handleError error msg ;;;
       ret (Rejected error)).

(** [(error) => this.fireError(error)] *)
Definition writer_on_error : listener :=
  fun error => [(Writer, FireError error None None)].

(** [() => this.fireClose]: the body reads the method and does not call
    it. *)
Definition writer_on_close : listener :=
  fun _ => [].

Definition IPCMessageWriter_new (process : Process) (eventEmitter : emitter listener)
  : IPCMessageWriter * emitter listener :=
  ({| process := process; errorCount := 0 |},
   on "close" writer_on_close (on "error" writer_on_error eventEmitter)).

(** The endpoint emits a native event: every listener registered under
    that name runs, in registration order. *)
Definition native_emit (name : string) (payload : value) (eventEmitter : emitter listener)
  : list (channel * notification) :=
  flat_map (fun l => l payload) (listeners name eventEmitter).

(** The notifications of one channel among those fired. *)
Definition fired_by (c : channel) (ns : list (channel * notification)) : list notification :=
  map snd (filter (fun n => match fst n, c with
                            | Reader, Reader | Writer, Writer => true
                            | _, _ => false
                            end) ns).

(** What happens to a writer over its life: calls of [write], and
    completions of earlier sends reported by the runtime. *)
Inductive action : Type :=
| Write (msg : value)
| Completed (msg : value) (error : value).

Definition perform (a : action) (w : IPCMessageWriter) : IPCMessageWriter * list effect :=
  match a with
  | Write msg => let '(_, w', t) := write msg w in (w', t)
  | Completed msg error => let '(_, w', t) := send_callback msg error w in (w', t)
  end.

Fixpoint perform_all (acts : list action) (w : IPCMessageWriter)
  : IPCMessageWriter * list effect :=
  match acts with
  | [] => (w, [])
  | a :: rest =>
      let '(w1, t1) := perform a w in
      let '(w2, t2) := perform_all rest w1 in
      (w2, t1 ++ t2)
  end.

(** Endpoints and values used in the examples. *)
Definition accepting_process : Process := {| send := Some (fun _ => SendQueued) |}.
Definition throwing_process (e : value) : Process :=
  {| send := Some (fun _ => SendThrows e) |}.
Definition mute_process : Process := {| send := None |}.

Definition sample_message : value :=
  VObject [("jsonrpc", VString "2.0"); ("method", VString "ping")].
Definition sample_error : value :=
  VObject [("message", VString "channel closed")].

Definition with_count (n : nat) (w : IPCMessageWriter) : IPCMessageWriter :=
  {| process := process w; errorCount := n |}.

(** *** Reading a run *)

Definition msg_of (a : action) : value :=
  match a with Write msg | Completed msg _ => msg end.

(** The messages handed to the native [send], and the messages written. *)
Definition native_sends (t : list effect) : list value :=
  flat_map (fun e => match e with NativeSend m => [m] | Notify _ => [] end) t.

Definition written (acts : list action) : list value :=
  flat_map (fun a => match a with Write m => [m] | Completed _ _ => [] end) acts.

(** A completion without error. *)
Definition is_reset (a : action) : bool :=
  match a with
  | Completed _ error => negb (truthy error)
  | Write _ => false
  end.

(** By how much an action that is no reset raises the count. *)
Definition weight (p : Process) (a : action) : nat :=
  match a with
  | Write msg =>
      match send p with
      | Some f => match f msg with SendThrows _ => 1 | SendQueued => 0 end
      | None => 0
      end
  | Completed _ error => if truthy error then 2 else 0
  end.

(** The actions after the last completion without error. *)
Fixpoint since_last_reset (acts : list action) : list action :=
  match acts with
  | [] => []
  | a :: rest =>
      if existsb is_reset rest then since_last_reset rest
      else if is_reset a then rest
      else a :: rest
  end.

(** The error an action meets, if any: the one the native send throws, or
    the one its completion reports. *)
Definition failure_of (p : Process) (a : action) : option value :=
  match a with
  | Write msg =>
      match send p with
      | Some f => match f msg with SendThrows e => Some e | SendQueued => None end
      | None => None
      end
  | Completed _ error => if truthy error then Some error else None
  end.

(** The notifications among the effects. *)
Definition notifications (t : list effect) : list notification :=
  flat_map (fun e => match e with Notify n => [n] | NativeSend _ => [] end) t.

End IPC.

(* ===================================================================== *)
(** ** Transport bootstrap: pipe and loopback-socket entry points *)
(* ===================================================================== *)

Module Net.
Import JS.

(** What [listen] and [createConnection] are given: a pipe path, or a port
    with a host. *)
Inductive address : Type :=
| PipePath (path : string)
| TcpPort (port : Z) (host : string).

(** A socket is handed over by a listening server, or comes back from
    [createConnection]. *)
Inductive Socket : Type :=
| Incoming (id : nat)
| Dialled (to : address).

Record SocketMessageReader : Type :=
  { reader_socket : Socket; reader_encoding : string }.

Record SocketMessageWriter : Type :=
  { writer_socket : Socket; writer_encoding : string }.

Definition channel : Type := (SocketMessageReader * SocketMessageWriter)%type.

(** The only function ever registered on the server's emitter is the
    outer promise's [reject]. *)
Inductive server_listener : Type := OuterRejectFn.

Definition same_listener (a b : server_listener) : bool := true.

(** Calls made by the entry points and their closures, in program order. *)
Inductive call : Type :=
| CreateServer
| ServerOn (name : string) (l : server_listener)
| ServerListen (a : address)
| ServerRemoveListener (name : string) (l : server_listener)
| ServerClose
| CreateConnection (a : address)
| NewSocketMessageReader (s : Socket) (encoding : string)
| NewSocketMessageWriter (s : Socket) (encoding : string)
| ConnectResolve (c : channel)
| OuterResolve
| OuterReject (e : value)
| UnhandledError (e : value).

(** [net.Server] as this code drives it. *)
Inductive phase : Type :=
| Idle
| Binding (a : address)
| Listening (a : address)
| BindFailed
| Closed.

(** The object the outer promise resolves with: [{ onConnected }]. *)
Inductive Transport : Type := TransportObject.

(** Everything one call of a client entry point allocates. *)
Record bootstrap : Type :=
  { encoding : string;
    server_phase : phase;
    server_emitter : emitter server_listener;
    connected : promise channel;
    outer : promise Transport;
    log : list call }.

Definition record_call (c : call) (b : bootstrap) : bootstrap :=
  {| encoding := encoding b; server_phase := server_phase b;
     server_emitter := server_emitter b; connected := connected b;
     outer := outer b; log := log b ++ [c] |}.

Definition set_phase (p : phase) (b : bootstrap) : bootstrap :=
  {| encoding := encoding b; server_phase := p;
     server_emitter := server_emitter b; connected := connected b;
     outer := outer b; log := log b |}.

Definition set_emitter (em : emitter server_listener) (b : bootstrap) : bootstrap :=
  {| encoding := encoding b; server_phase := server_phase b;
     server_emitter := em; connected := connected b;
     outer := outer b; log := log b |}.

Definition set_connected (p : promise channel) (b : bootstrap) : bootstrap :=
  {| encoding := encoding b; server_phase := server_phase b;
     server_emitter := server_emitter b; connected := p;
     outer := outer b; log := log b |}.

Definition set_outer (p : promise Transport) (b : bootstrap) : bootstrap :=
  {| encoding := encoding b; server_phase := server_phase b;
     server_emitter := server_emitter b; connected := connected b;
     outer := p; log := log b |}.

(** *** Server methods *)

Definition server_on (name : string) (l : server_listener) (b : bootstrap) : bootstrap :=
  set_emitter (on name l (server_emitter b)) (record_call (ServerOn name l) b).

Definition server_removeListener (name : string) (l : server_listener) (b : bootstrap)
  : bootstrap :=
  set_emitter (removeListener same_listener name l (server_emitter b))
              (record_call (ServerRemoveListener name l) b).

Definition server_listen (a : address) (b : bootstrap) : bootstrap :=
  set_phase (Binding a) (record_call (ServerListen a) b).

(** [server.close()] stops the server from accepting connections. *)
Definition server_close (b : bootstrap) : bootstrap :=
  set_phase Closed (record_call ServerClose b).

(** *** Resolving functions *)

Definition connectResolve (c : channel) (b : bootstrap) : bootstrap :=
  set_connected (resolve c (connected b)) (record_call (ConnectResolve c) b).

Definition outer_resolve (b : bootstrap) : bootstrap :=
  set_outer (resolve TransportObject (outer b)) (record_call OuterResolve b).

Definition outer_reject (e : value) (b : bootstrap) : bootstrap :=
  set_outer (reject e (outer b)) (record_call (OuterReject e) b).

(** [onConnected: () => { return connected; }] *)
Definition onConnected (t : Transport) (b : bootstrap) : promise channel :=
  connected b.

(** *** Closures of the client entry points *)

Definition new_SocketMessageReader (s : Socket) (enc : string) (b : bootstrap)
  : SocketMessageReader * bootstrap :=
  ({| reader_socket := s; reader_encoding := enc |},
   record_call (NewSocketMessageReader s enc) b).

Definition new_SocketMessageWriter (s : Socket) (enc : string) (b : bootstrap)
  : SocketMessageWriter * bootstrap :=
  ({| writer_socket := s; writer_encoding := enc |},
   record_call (NewSocketMessageWriter s enc) b).

(** [(socket) => { server.close(); connectResolve([new SocketMessageReader(socket, encoding),
                                                   new SocketMessageWriter(socket, encoding)]); }] *)
Definition connectionListener (socket : Socket) (b : bootstrap) : bootstrap :=
  let b1 := server_close b in
  let '(r, b2) := new_SocketMessageReader socket (encoding b1) b1 in
  let '(w, b3) := new_SocketMessageWriter socket (encoding b2) b2 in
  connectResolve (r, w) b3.

(** [() => { server.removeListener('error', reject); resolve({ onConnected }); }] *)
Definition listeningCallback (b : bootstrap) : bootstrap :=
  outer_resolve (server_removeListener "error" OuterRejectFn b).

Definition run_listener (e : value) (l : server_listener) (b : bootstrap) : bootstrap :=
  match l with OuterRejectFn => outer_reject e b end.

(** *** Entry points *)

Definition default_encoding (encoding : option string) : string :=
  match encoding with Some e => e | None => "utf-8" end.

Definition fresh (enc : string) : bootstrap :=
  {| encoding := enc; server_phase := Idle; server_emitter := [];
     connected := Pending; outer := Pending; log := [] |}.

Definition createClientPipeTransport (pipeName : string) (encoding : option string)
  : bootstrap :=
  let b := fresh (default_encoding encoding) in
  let b := record_call CreateServer b in
  let b := server_on "error" OuterRejectFn b in
  server_listen (PipePath pipeName) b.

Definition createClientSocketTransport (port : Z) (encoding : option string)
  : bootstrap :=
  let b := fresh (default_encoding encoding) in
  let b := record_call CreateServer b in
  let b := server_on "error" OuterRejectFn b in
  server_listen (TcpPort port "127.0.0.1") b.

Definition createServerPipeTransport (pipeName : string) (encoding : option string)
  : channel * list call :=
  let enc := default_encoding encoding in
  let socket := Dialled (PipePath pipeName) in
  (({| reader_socket := socket; reader_encoding := enc |},
    {| writer_socket := socket; writer_encoding := enc |}),
   [CreateConnection (PipePath pipeName);
    NewSocketMessageReader socket enc; NewSocketMessageWriter socket enc]).

Definition createServerSocketTransport (port : Z) (encoding : option string)
  : channel * list call :=
  let enc := default_encoding encoding in
  let socket := Dialled (TcpPort port "127.0.0.1") in
  (({| reader_socket := socket; reader_encoding := enc |},
    {| writer_socket := socket; writer_encoding := enc |}),
   [CreateConnection (TcpPort port "127.0.0.1");
    NewSocketMessageReader socket enc; NewSocketMessageWriter socket enc]).

(** *** Events delivered by the server *)

Inductive event : Type :=
| EvListening
| EvError (e : value)
| EvConnection (s : Socket)
| EvClose.

(** ['error']: every registered listener runs; with none registered the
    emitter raises the error itself.  An error while binding leaves the
    server unbound. *)
Definition deliver_error (e : value) (b : bootstrap) : bootstrap :=
  let b1 := match server_phase b with
            | Binding _ => set_phase BindFailed b
            | _ => b
            end in
  match listeners "error" (server_emitter b1) with
  | [] => record_call (UnhandledError e) b1
  | ls => fold_left (fun acc l => run_listener e l acc) ls b1
  end.

(** The listening callback runs once the bind has succeeded; connections
    are handed over only while the server is listening; no listener is
    registered for ['close']. *)
Definition deliver (ev : event) (b : bootstrap) : bootstrap :=
  match ev with
  | EvListening =>
      match server_phase b with
      | Binding a => listeningCallback (set_phase (Listening a) b)
      | _ => b
      end
  | EvError e => deliver_error e b
  | EvConnection s =>
      match server_phase b with
      | Listening _ => connectionListener s b
      | _ => b
      end
  | EvClose => b
  end.

Definition run (evs : list event) (b : bootstrap) : bootstrap :=
  fold_left (fun acc ev => deliver ev acc) evs b.

(** *** Observations on a log *)

Definition channels_resolved (l : list call) : list channel :=
  flat_map (fun c => match c with ConnectResolve ch => [ch] | _ => [] end) l.

Definition channels_built (l : list call) : list Socket :=
  flat_map (fun c => match c with NewSocketMessageWriter s _ => [s] | _ => [] end) l.

Definition addresses_used (l : list call) : list address :=
  flat_map (fun c => match c with
                     | ServerListen a | CreateConnection a => [a]
                     | _ => []
                     end) l.

Definition channel_of (s : Socket) (enc : string) : channel :=
  ({| reader_socket := s; reader_encoding := enc |},
   {| writer_socket := s; writer_encoding := enc |}).

(** The socket of the first connection the server hands over: the first
    [EvConnection] after the bind succeeded. *)
Fixpoint first_accepted (listening : bool) (evs : list event) : option Socket :=
  match evs with
  | [] => None
  | EvListening :: rest => first_accepted true rest
  | EvError _ :: rest => if listening then first_accepted true rest else None
  | EvConnection s :: rest => if listening then Some s else first_accepted false rest
  | EvClose :: rest => first_accepted listening rest
  end.

Definition is_connection (ev : event) : bool :=
  match ev with EvConnection _ => true | _ => false end.

(** Two states that agree on the encoding, on the inner promise and on
    what their logs show of channels and addresses. *)
Definition frame (b b' : bootstrap) : Prop :=
  encoding b' = encoding b /\
  connected b' = connected b /\
  channels_resolved (log b') = channels_resolved (log b) /\
  channels_built (log b') = channels_built (log b) /\
  addresses_used (log b') = addresses_used (log b).

(** A server that is closed, or has failed to bind: from here on no event
    reaches the closures that build channels. *)
Definition settled (b : bootstrap) : Prop :=
  server_phase b = Closed \/ server_phase b = BindFailed.

(** The outcome of a run, read off the events: the inner promise, the
    channels it was resolved with and the sockets wrapped. *)
Definition outcome (enc : string) (accepted : option Socket) (b : bootstrap) : Prop :=
  connected b = match accepted with
                | Some s => Fulfilled (channel_of s enc)
                | None => Pending
                end /\
  channels_resolved (log b) = match accepted with
                              | Some s => [channel_of s enc]
                              | None => []
                              end /\
  channels_built (log b) = match accepted with
                           | Some s => [s]
                           | None => []
                           end.

Definition sample_bind_error : value :=
  VObject [("code", VString "EADDRINUSE")].


(** *** The bootstrap seen from outside *)

(** Where a client bootstrap stands: waiting for the bind, bound and
    waiting for a peer, failed to bind, or connected. *)
Inductive stage : Type :=
| Awaiting
| Bound
| Failed (e : value)
| Connected (s : Socket).

Definition stage_step (st : stage) (ev : event) : stage :=
  match st, ev with
  | Awaiting, EvListening => Bound
  | Awaiting, EvError e => Failed e
  | Bound, EvConnection s => Connected s
  | _, _ => st
  end.

Definition stages (evs : list event) (st : stage) : stage :=
  fold_left stage_step evs st.

Definition count_closes (l : list call) : nat :=
  List.length (filter (fun c => match c with ServerClose => true | _ => false end) l).

(** What can be seen of a bootstrap: the server's phase and registrations,
    the two promises, and how often the server was closed. *)
Definition snapshot (b : bootstrap)
  : phase * emitter server_listener * promise Transport * promise channel * nat :=
  (server_phase b, server_emitter b, outer b, connected b, count_closes (log b)).

Definition expected (a : address) (enc : string) (st : stage)
  : phase * emitter server_listener * promise Transport * promise channel * nat :=
  match st with
  | Awaiting => (Binding a, [("error", OuterRejectFn)], Pending, Pending, 0)
  | Bound => (Listening a, [], Fulfilled TransportObject, Pending, 0)
  | Failed e => (BindFailed, [("error", OuterRejectFn)], Rejected e, Pending, 0)
  | Connected s => (Closed, [], Fulfilled TransportObject,
                    Fulfilled (channel_of s enc), 1)
  end.

End Net.

(* ===================================================================== *)
(** ** Pipe names *)
(* ===================================================================== *)

Module PipeName.

(** [Buffer.toString('hex')]: two lowercase digits per byte. *)
Definition hex_digit (n : N) : ascii :=
  match String.get (N.to_nat n) "0123456789abcdef" with
  | Some c => c
  | None => "0"%char
  end.

Definition byte_hex (b : Byte.byte) : string :=
  let n := Byte.to_N b in
  String (hex_digit (n / 16)) (String (hex_digit (n mod 16)) EmptyString).

Fixpoint toString_hex (bs : list Byte.byte) : string :=
  match bs with
  | [] => EmptyString
  | b :: rest => (byte_hex b ++ toString_hex rest)%string
  end.

Definition is_hex_char (c : ascii) : bool :=
  let n := N_of_ascii c in
  ((48 <=? n) && (n <=? 57) || (97 <=? n) && (n <=? 102))%N.

Fixpoint all_hex (s : string) : bool :=
  match s with
  | EmptyString => true
  | String c rest => is_hex_char c && all_hex rest
  end.

(** Reading a hex rendering back. *)
Definition hex_value (c : ascii) : option N :=
  let n := N_of_ascii c in
  if ((48 <=? n) && (n <=? 57))%N then Some (n - 48)%N
  else if ((97 <=? n) && (n <=? 102))%N then Some (n - 87)%N
  else None.

Fixpoint parse_hex (s : string) : option (list Byte.byte) :=
  match s with
  | EmptyString => Some []
  | String hi (String lo rest) =>
      match hex_value hi, hex_value lo, parse_hex rest with
      | Some h, Some l, Some bs =>
          match Byte.of_N (16 * h + l) with
          | Some b => Some (b :: bs)
          | None => None
          end
      | _, _, _ => None
      end
  | String _ EmptyString => None
  end.

(** [crypto.randomBytes(n)]: the next [n] bytes of the system's random
    source. *)
Definition randomBytes (source : nat -> Byte.byte) (n : nat) : list Byte.byte :=
  map source (seq 0 n).

Section Generate.
(** [process.platform], [os.tmpdir()], [path.join] and the random
    source. *)
Variable platform : string.
Variable tmpdir : string.
Variable path_join : string -> string -> string.
Variable source : nat -> Byte.byte.

Definition generateRandomPipeName : string :=
  let randomSuffix := toString_hex (randomBytes source 21) in
  if (platform =? "win32")%string then
    ("\\.\pipe\vscode-jsonrpc-" ++ randomSuffix ++ "-sock")%string
  else
    path_join tmpdir ("vscode-" ++ randomSuffix ++ ".sock")%string.
End Generate.

(** *** [path.join] on POSIX platforms, for two arguments *)

Fixpoint split_slash (acc : string) (s : string) : list string :=
  match s with
  | EmptyString => [acc]
  | String c rest =>
      if (c =? "/")%char then acc :: split_slash EmptyString rest
      else split_slash (acc ++ String c EmptyString)%string rest
  end.

(** Segments are kept on a stack, last one first. *)
Fixpoint normalize_segments (allowAboveRoot : bool) (stack : list string)
         (segs : list string) : list string :=
  match segs with
  | [] => rev stack
  | seg :: rest =>
      if ((seg =? "") || (seg =? "."))%string then
        normalize_segments allowAboveRoot stack rest
      else if (seg =? "..")%string then
        match stack with
        | top :: below =>
            if (top =? "..")%string then
              normalize_segments allowAboveRoot (if allowAboveRoot then seg :: stack else stack) rest
            else normalize_segments allowAboveRoot below rest
        | [] =>
            normalize_segments allowAboveRoot (if allowAboveRoot then [seg] else []) rest
        end
      else normalize_segments allowAboveRoot (seg :: stack) rest
  end.

Definition starts_with_slash (s : string) : bool :=
  match s with String c _ => (c =? "/")%char | EmptyString => false end.

Fixpoint ends_with_slash (s : string) : bool :=
  match s with
  | EmptyString => false
  | String c EmptyString => (c =? "/")%char
  | String _ rest => ends_with_slash rest
  end.

Definition posix_normalize (path : string) : string :=
  match path with
  | EmptyString => "."
  | _ =>
      let isAbsolute := starts_with_slash path in
      let trailingSeparator := ends_with_slash path in
      let body := String.concat "/"
                    (normalize_segments (negb isAbsolute) [] (split_slash EmptyString path)) in
      match body with
      | EmptyString =>
          if isAbsolute then "/" else if trailingSeparator then "./" else "."
      | _ =>
          let body := if trailingSeparator then (body ++ "/")%string else body in
          if isAbsolute then ("/" ++ body)%string else body
      end
  end.

Definition posix_join (a b : string) : string :=
  match a, b with
  | EmptyString, EmptyString => "."
  | EmptyString, _ => posix_normalize b
  | _, EmptyString => posix_normalize a
  | _, _ => posix_normalize (a ++ "/" ++ b)%string
  end.

(** The two address shapes with a 32-digit random part. *)
Definition windows_form_32 (name : string) : Prop :=
  exists prefix random : string,
    String.length random = 32 /\ all_hex random = true /\
    name = ("\\.\pipe\" ++ prefix ++ "-" ++ random ++ "-sock")%string.

Definition posix_form_32 (tmpdir name : string) : Prop :=
  exists prefix random : string,
    String.length random = 32 /\ all_hex random = true /\
    name = (tmpdir ++ "/" ++ prefix ++ "-" ++ random ++ ".sock")%string.

End PipeName.

(* ===================================================================== *)
(** ** Socket-backed writer *)
(* ===================================================================== *)

Module Stream.
Import JS.

(** [net.Socket], as far as [destroy] goes: the first call closes the
    handle, a call on a destroyed socket does nothing. *)
Record Socket : Type :=
  { destroyed : bool;
    handle_closes : nat;
    destroy_calls : nat }.

Definition socket_destroy (s : Socket) : Socket :=
  {| destroyed := true;
     handle_closes := if destroyed s then handle_closes s else S (handle_closes s);
     destroy_calls := S (destroy_calls s) |}.

Definition open_socket : Socket :=
  {| destroyed := false; handle_closes := 0; destroy_calls := 0 |}.

Section Writer.
(** The inherited part of the writer and its [dispose]. *)
Variable Base : Type.
Variable super_dispose : Base -> result Base.

Record SocketMessageWriter : Type :=
  { base : Base;
    socket : Socket }.

(** [dispose() { super.dispose(); this.socket.destroy(); }] *)
Definition dispose (w : SocketMessageWriter) : result SocketMessageWriter :=
  match super_dispose (base w) with
  | Throw e => Throw e
  | Ok b => Ok {| base := b; socket := socket_destroy (socket w) |}
  end.
End Writer.
Arguments base {Base} _.
Arguments socket {Base} _.
Arguments dispose {Base} super_dispose w.

(** A base writer holding an error emitter and a close emitter, whose
    [dispose] releases both. *)
Record Emitters : Type :=
  { errorEmitter_disposed : bool;
    closeEmitter_disposed : bool }.

Definition emitters_dispose (b : Emitters) : result Emitters :=
  Ok {| errorEmitter_disposed := true; closeEmitter_disposed := true |}.

Definition live_writer : SocketMessageWriter Emitters :=
  {| base := {| errorEmitter_disposed := false; closeEmitter_disposed := false |};
     socket := open_socket |}.

(** [dispose()] called [n] times in a row. *)
Fixpoint dispose_times {Base : Type} (super_dispose : Base -> result Base)
         (n : nat) (w : SocketMessageWriter Base) : result (SocketMessageWriter Base) :=
  match n with
  | 0 => Ok w
  | S k =>
      match dispose super_dispose w with
      | Ok w' => dispose_times super_dispose k w'
      | Throw e => Throw e
      end
  end.

End Stream.

(* ===================================================================== *)
(** ** Connection factory *)
(* ===================================================================== *)

Module Factory.
Import JS.

Inductive MessageReader : Type :=
| ReaderObject (v : value)
| NewStreamMessageReader (readable : value).

Inductive MessageWriter : Type :=
| WriterObject (v : value)
| NewStreamMessageWriter (writable : value).

Definition bind_result {A B} (r : result A) (k : A -> result B) : result B :=
  match r with
  | Ok a => k a
  | Throw e => Throw e
  end.

(** [value.listen !== undefined && value.read === undefined] *)
Definition isMessageReader (v : value) : result bool :=
  bind_result (member v "listen") (fun listen =>
    if negb (is_undefined listen) then
      bind_result (member v "read") (fun read => Ok (is_undefined read))
    else Ok false).

(** [value.write !== undefined && value.end === undefined] *)
Definition isMessageWriter (v : value) : result bool :=
  bind_result (member v "write") (fun write =>
    if negb (is_undefined write) then
      bind_result (member v "end") (fun end_ => Ok (is_undefined end_))
    else Ok false).

(** [{ connectionStrategy: options }] *)
Definition as_ConnectionOptions (options : value) : value :=
  VObject [("connectionStrategy", options)].

Section Create.
(** Imported from the common layer: the connection constructor, the
    no-op logger and the strategy recogniser. *)
Variable MessageConnection : Type.
Variable _createMessageConnection :
  MessageReader -> MessageWriter -> value -> value -> MessageConnection.
Variable NullLogger : value.
Variable ConnectionStrategy_is : value -> bool.

(** What the inherited constructor of [StreamMessageWriter] throws for a
    stream, if anything: it subscribes to the stream's events as soon as it
    is built.  The constructor of [StreamMessageReader] only stores its
    stream; it subscribes when [listen] is called. *)
Variable StreamMessageWriter_throws : value -> option value.

Definition new_StreamMessageWriter (writable : value) : result MessageWriter :=
  match StreamMessageWriter_throws writable with
  | Some e => Throw e
  | None => Ok (NewStreamMessageWriter writable)
  end.

Definition createMessageConnection (input output logger options : value)
  : result MessageConnection :=
  let logger := if negb (truthy logger) then NullLogger else logger in
  bind_result (isMessageReader input) (fun is_reader =>
    let reader := if is_reader then ReaderObject input
                  else NewStreamMessageReader input in
    bind_result (isMessageWriter output) (fun is_writer =>
      bind_result (if is_writer then Ok (WriterObject output)
                   else new_StreamMessageWriter output) (fun writer =>
        let options := if ConnectionStrategy_is options
                       then as_ConnectionOptions options else options in
        Ok (_createMessageConnection reader writer logger options)))).
End Create.

Section Protocol.
(** [createMessageConnection] as imported from vscode-jsonrpc. *)
Variable ProtocolConnection : Type.
Variable jsonrpc_createMessageConnection :
  value -> value -> value -> value -> ProtocolConnection.
Variable ConnectionStrategy_is : value -> bool.

Definition createProtocolConnection (input output logger options : value)
  : ProtocolConnection :=
  let options := if ConnectionStrategy_is options
                 then as_ConnectionOptions options else options in
  jsonrpc_createMessageConnection input output logger options.
End Protocol.

(** A recogniser for the examples: a strategy is a value that is truthy
    and carries a function member [cancelUndispatched]. *)
Definition has_cancelUndispatched (v : value) : bool :=
  truthy v &&
  match member v "cancelUndispatched" with
  | Ok f => is_function f
  | Throw _ => false
  end.

Definition sample_strategy : value :=
  VObject [("cancelUndispatched", VFunction "cancelUndispatched")].

Definition sample_reader : value := VObject [("listen", VFunction "listen")].
Definition sample_writer : value := VObject [("write", VFunction "write")].
Definition sample_readable : value :=
  VObject [("read", VFunction "read"); ("on", VFunction "on")].
Definition sample_writable : value :=
  VObject [("write", VFunction "write"); ("end", VFunction "end");
           ("on", VFunction "on")].

(** A stream writer's constructor for the examples: it calls the stream's
    [on], which throws when [on] is not a function. *)
Definition throws_without_on (writable : value) : option value :=
  if is_function (get writable "on") then None else Some TypeError.

(** A writable without [on]. *)
Definition sample_sink : value :=
  VObject [("write", VFunction "write"); ("end", VFunction "end")].
Definition noop_logger : value := VObject [("log", VFunction "log")].

End Factory.

(* ===================================================================== *)
(** * Properties *)
(* ===================================================================== *)

(** ** Process-backed channel *)

Section IPCFacts.
Import JS IPC.

Lemma handleError_run (error msg : value) (w : IPCMessageWriter) :
  handleError error msg w =
    (Ok tt, with_count (S (errorCount w)) w,
     [Notify (FireError error (Some msg) (Some (S (errorCount w))))]).
Proof. reflexivity. Qed.

(** A completion that reports an error passes through both increments:
    the callback's own and the one inside [handleError]. *)
Lemma send_callback_failure (msg error : value) (w : IPCMessageWriter) :
  truthy error = true ->
  send_callback msg error w =
    (Ok tt, with_count (S (S (errorCount w))) w,
     [Notify (FireError error (Some msg) (Some (S (S (errorCount w)))))]).
Proof.
  intros Herr. unfold send_callback. rewrite Herr. reflexivity.
Qed.

Lemma send_callback_success (msg error : value) (w : IPCMessageWriter) :
  truthy error = false ->
  send_callback msg error w = (Ok tt, with_count 0 w, []).
Proof.
  intros Herr. unfold send_callback. rewrite Herr. reflexivity.
Qed.

Lemma write_without_send (msg : value) (w : IPCMessageWriter) :
  send (process w) = None ->
  write msg w = (Ok (Fulfilled tt), w, []).
Proof.
  intros Hsend. unfold write, try_catch, bind, get_process, ret.
  rewrite Hsend. reflexivity.
Qed.

Lemma write_queued (msg : value) (w : IPCMessageWriter) f :
  send (process w) = Some f -> f msg = SendQueued ->
  write msg w = (Ok (Fulfilled tt), w, [NativeSend msg]).
Proof.
  intros Hsend Hf.
  unfold write, try_catch, bind, get_process, native_send, bind, emit, ret.
  rewrite Hsend. cbn. rewrite Hf. reflexivity.
Qed.

Lemma write_thrown (msg : value) (w : IPCMessageWriter) f e :
  send (process w) = Some f -> f msg = SendThrows e ->
  write msg w =
    (Ok (Rejected e), with_count (S (errorCount w)) w,
     [NativeSend msg; Notify (FireError e (Some msg) (Some (S (errorCount w))))]).
Proof.
  intros Hsend Hf.
  unfold write, try_catch, bind, get_process, native_send, bind, emit, throw.
  rewrite Hsend. cbn. rewrite Hf. reflexivity.
Qed.

(** [write] never throws: a failure of the native call comes back as a
    rejected promise. *)
Lemma write_returns (msg : value) (w : IPCMessageWriter) :
  exists p w' t, write msg w = (Ok p, w', t).
Proof.
  destruct (send (process w)) as [f|] eqn:Hsend.
  - destruct (f msg) as [e|] eqn:Hf.
    + rewrite (write_thrown msg w f e Hsend Hf). eauto.
    + rewrite (write_queued msg w f Hsend Hf). eauto.
  - rewrite (write_without_send msg w Hsend). eauto.
Qed.

(** A call of [write] moves the count only when the native call throws. *)
Lemma write_count (msg : value) (w : IPCMessageWriter) :
  errorCount (fst (perform (Write msg) w)) =
    match send (process w) with
    | Some f => match f msg with
                | SendThrows _ => S (errorCount w)
                | SendQueued => errorCount w
                end
    | None => errorCount w
    end.
Proof.
  unfold perform.
  destruct (send (process w)) as [f|] eqn:Hsend.
  - destruct (f msg) as [e|] eqn:Hf.
    + rewrite (write_thrown msg w f e Hsend Hf). reflexivity.
    + rewrite (write_queued msg w f Hsend Hf). reflexivity.
  - rewrite (write_without_send msg w Hsend). reflexivity.
Qed.

Lemma listeners_on (name name' : string) (l : listener) (em : emitter listener) :
  listeners name (on name' l em) =
    listeners name em ++ (if (name' =? name)%string then [l] else []).
Proof.
  unfold listeners, on. rewrite filter_app, map_app. cbn.
  destruct (name' =? name)%string; reflexivity.
Qed.

Lemma native_emit_on (name name' : string) (l : listener) (em : emitter listener) payload :
  native_emit name payload (on name' l em) =
    native_emit name payload em ++ (if (name' =? name)%string then l payload else []).
Proof.
  unfold native_emit. rewrite listeners_on, flat_map_app.
  destruct (name' =? name)%string; cbn; rewrite ?app_nil_r; reflexivity.
Qed.

Lemma fired_by_app (c : channel) ns1 ns2 :
  fired_by c (ns1 ++ ns2) = fired_by c ns1 ++ fired_by c ns2.
Proof. unfold fired_by. rewrite filter_app, map_app. reflexivity. Qed.

(** The reader re-fires both native events. *)
Lemma reader_forwards_error (p : Process) (em : emitter listener) (error : value) :
  fired_by Reader (native_emit "error" error (snd (IPCMessageReader_new p em))) =
    fired_by Reader (native_emit "error" error em) ++ [FireError error None None].
Proof.
  cbn [IPCMessageReader_new snd]. rewrite !native_emit_on. cbn.
  rewrite app_nil_r, fired_by_app. reflexivity.
Qed.

Lemma reader_forwards_close (p : Process) (em : emitter listener) (payload : value) :
  fired_by Reader (native_emit "close" payload (snd (IPCMessageReader_new p em))) =
    fired_by Reader (native_emit "close" payload em) ++ [FireClose].
Proof.
  cbn [IPCMessageReader_new snd]. rewrite !native_emit_on. cbn.
  rewrite app_nil_r, fired_by_app. reflexivity.
Qed.

(** The writer re-fires ['error'] ... *)
Lemma writer_forwards_error (p : Process) (em : emitter listener) (error : value) :
  fired_by Writer (native_emit "error" error (snd (IPCMessageWriter_new p em))) =
    fired_by Writer (native_emit "error" error em) ++ [FireError error None None].
Proof.
  cbn [IPCMessageWriter_new snd]. rewrite !native_emit_on. cbn.
  rewrite app_nil_r, fired_by_app. reflexivity.
Qed.

(** ... and adds nothing on ['close']. *)
Lemma writer_close_adds_nothing (p : Process) (em : emitter listener) (payload : value) :
  native_emit "close" payload (snd (IPCMessageWriter_new p em)) =
    native_emit "close" payload em.
Proof.
  cbn [IPCMessageWriter_new snd]. rewrite !native_emit_on. cbn.
  rewrite !app_nil_r. reflexivity.
Qed.

End IPCFacts.


Section IPCClaims.
Import JS IPC.

(** C1 (the code departs from the claim): one send whose completion
    callback reports an error raises the count of a new writer from 0 to 2,
    and the notification carries 2, where the claim has one failed send
    count as one.  The callback increments the count and then calls
    [handleError], which increments it again; a send that throws goes
    through [handleError] alone and counts once. *)
Theorem ipc_async_failure_counts_twice :
  let w0 := fst (IPCMessageWriter_new accepting_process []) in
  let w1 := fst (IPCMessageWriter_new (throwing_process sample_error) []) in
  errorCount w0 = 0 /\
  perform_all [Write sample_message; Completed sample_message sample_error] w0 =
    (with_count 2 w0,
     [NativeSend sample_message;
      Notify (FireError sample_error (Some sample_message) (Some 2))]) /\
  perform_all [Write sample_message] w1 =
    (with_count 1 w1,
     [NativeSend sample_message;
      Notify (FireError sample_error (Some sample_message) (Some 1))]).
Proof. repeat split. Qed.

(** C3: [write(msg)] on an endpoint without [send] calls nothing and
    returns a fulfilled promise; when the native send throws, the promise
    returned is rejected with the error thrown and the error is reported
    through [fireError]; when the native send takes the message, the promise
    returned is fulfilled at once, and a later completion with an error does
    nothing but fire the error notification. *)
Theorem ipc_write_behaviour (msg : value) (w : IPCMessageWriter) :
  (send (process w) = None ->
   write msg w = (Ok (Fulfilled tt), w, [])) /\
  (forall f e,
     send (process w) = Some f -> f msg = SendThrows e ->
     exists w',
       write msg w =
         (Ok (Rejected e), w',
          [NativeSend msg; Notify (FireError e (Some msg) (Some (errorCount w')))])) /\
  (forall f,
     send (process w) = Some f -> f msg = SendQueued ->
     write msg w = (Ok (Fulfilled tt), w, [NativeSend msg]) /\
     forall error later,
       truthy error = true ->
       exists later',
         send_callback msg error later =
           (Ok tt, later',
            [Notify (FireError error (Some msg) (Some (errorCount later')))])).
Proof.
  split; [| split].
  - apply write_without_send.
  - intros f e Hsend Hf. exists (with_count (S (errorCount w)) w).
    apply (write_thrown msg w f e Hsend Hf).
  - intros f Hsend Hf. split.
    + apply (write_queued msg w f Hsend Hf).
    + intros error later Herr. exists (with_count (S (S (errorCount later))) later).
      apply (send_callback_failure msg error later Herr).
Qed.

Lemma ipc_write_behaviour_witness :
  write sample_message (with_count 0 {| process := mute_process; errorCount := 0 |}) =
    (Ok (Fulfilled tt), {| process := mute_process; errorCount := 0 |}, []) /\
  (exists w',
     write sample_message {| process := throwing_process sample_error; errorCount := 3 |} =
       (Ok (Rejected sample_error), w',
        [NativeSend sample_message;
         Notify (FireError sample_error (Some sample_message) (Some (errorCount w')))])) /\
  write sample_message {| process := accepting_process; errorCount := 3 |} =
    (Ok (Fulfilled tt), {| process := accepting_process; errorCount := 3 |},
     [NativeSend sample_message]) /\
  (exists later',
     send_callback sample_message sample_error
       {| process := accepting_process; errorCount := 3 |} =
       (Ok tt, later',
        [Notify (FireError sample_error (Some sample_message) (Some (errorCount later')))])).
Proof.
  split; [| split; [| split]].
  - apply (ipc_write_behaviour sample_message
             {| process := mute_process; errorCount := 0 |}). reflexivity.
  - apply (proj1 (proj2 (ipc_write_behaviour sample_message
             {| process := throwing_process sample_error; errorCount := 3 |}))
             (fun _ => SendThrows sample_error) sample_error); reflexivity.
  - apply (proj2 (proj2 (ipc_write_behaviour sample_message
             {| process := accepting_process; errorCount := 3 |}))
             (fun _ => SendQueued)); reflexivity.
  - apply (proj2 (proj2 (proj2 (ipc_write_behaviour sample_message
             {| process := accepting_process; errorCount := 3 |}))
             (fun _ => SendQueued) eq_refl eq_refl)). reflexivity.
Defined.

(** C4 (the code departs from the claim): with a reader and a writer built
    on one endpoint, a native ['close'] fires the reader's close
    notification and nothing for the writer, whose listener
    [() => this.fireClose] names the method without calling it; a native
    ['error'] reaches both channels with the error it carries. *)
Theorem ipc_writer_drops_native_close (p : Process) (payload : value) :
  let em := snd (IPCMessageWriter_new p (snd (IPCMessageReader_new p []))) in
  native_emit "close" payload em = [(Reader, FireClose)] /\
  fired_by Writer (native_emit "close" payload em) = [] /\
  native_emit "error" payload em =
    [(Reader, FireError payload None None); (Writer, FireError payload None None)].
Proof. repeat split. Qed.

End IPCClaims.

(** ** Transport bootstrap *)

Section NetFacts.
Import JS Net.

Lemma channels_resolved_app (l1 l2 : list call) :
  channels_resolved (l1 ++ l2) = channels_resolved l1 ++ channels_resolved l2.
Proof. apply flat_map_app. Qed.

Lemma channels_built_app (l1 l2 : list call) :
  channels_built (l1 ++ l2) = channels_built l1 ++ channels_built l2.
Proof. apply flat_map_app. Qed.

Lemma addresses_used_app (l1 l2 : list call) :
  addresses_used (l1 ++ l2) = addresses_used l1 ++ addresses_used l2.
Proof. apply flat_map_app. Qed.

Ltac observe :=
  cbn [log record_call set_phase set_emitter set_connected set_outer
       encoding connected server_phase server_emitter outer];
  rewrite ?channels_resolved_app, ?channels_built_app, ?addresses_used_app;
  cbn [channels_resolved channels_built addresses_used flat_map app];
  rewrite ?app_nil_r.

Lemma frame_refl (b : bootstrap) : frame b b.
Proof. repeat split. Qed.

Lemma frame_trans (b1 b2 b3 : bootstrap) :
  frame b1 b2 -> frame b2 b3 -> frame b1 b3.
Proof.
  unfold frame. intros (E1 & C1 & R1 & B1 & A1) (E2 & C2 & R2 & B2 & A2).
  repeat split; congruence.
Qed.

Lemma frame_set_phase (p : phase) (b : bootstrap) : frame b (set_phase p b).
Proof. repeat split. Qed.

Lemma frame_outer_reject (e : value) (b : bootstrap) : frame b (outer_reject e b).
Proof. unfold frame, outer_reject. observe. repeat split. Qed.

Lemma frame_unhandled (e : value) (b : bootstrap) :
  frame b (record_call (UnhandledError e) b).
Proof. unfold frame. observe. repeat split. Qed.

Lemma frame_listeningCallback (b : bootstrap) : frame b (listeningCallback b).
Proof.
  unfold frame, listeningCallback, outer_resolve, server_removeListener.
  observe. repeat split.
Qed.

(** Running the registered error listeners touches the outer promise and
    the log only. *)
Lemma run_listeners_frame (e : value) (ls : list server_listener) (b : bootstrap) :
  let b' := fold_left (fun acc l => run_listener e l acc) ls b in
  frame b b' /\ server_phase b' = server_phase b /\
  server_emitter b' = server_emitter b.
Proof.
  revert b. induction ls as [|l ls IH]; intros b; cbn.
  - split; [apply frame_refl | split; reflexivity].
  - destruct l. cbn [run_listener].
    destruct (IH (outer_reject e b)) as (F & P & E).
    split; [|split].
    + eapply frame_trans; [apply frame_outer_reject | exact F].
    + rewrite P. reflexivity.
    + rewrite E. reflexivity.
Qed.

Lemma deliver_error_frame (e : value) (b : bootstrap) :
  frame b (deliver_error e b) /\
  server_phase (deliver_error e b) =
    match server_phase b with Binding _ => BindFailed | p => p end.
Proof.
  unfold deliver_error.
  set (b1 := match server_phase b with Binding _ => set_phase BindFailed b | _ => b end).
  assert (F1 : frame b b1).
  { subst b1. destruct (server_phase b); auto using frame_refl, frame_set_phase. }
  assert (P1 : server_phase b1 =
               match server_phase b with Binding _ => BindFailed | p => p end).
  { subst b1. destruct (server_phase b) eqn:Hp; cbn; auto. }
  destruct (listeners "error" (server_emitter b1)) as [|l ls] eqn:Hls.
  - split.
    + eapply frame_trans; [exact F1 | apply frame_unhandled].
    + cbn. exact P1.
  - destruct (run_listeners_frame e (l :: ls) b1) as (F & P & _).
    split.
    + eapply frame_trans; [exact F1 | exact F].
    + rewrite P. exact P1.
Qed.

Lemma deliver_settled (ev : event) (b : bootstrap) :
  settled b -> frame b (deliver ev b) /\ settled (deliver ev b).
Proof.
  intros Hs. destruct ev as [|e|s|]; cbn [deliver].
  - destruct Hs as [Hp|Hp]; rewrite Hp; split; auto using frame_refl;
      unfold settled; auto.
  - destruct (deliver_error_frame e b) as (F & P). split; [exact F|].
    unfold settled. rewrite P. destruct Hs as [Hp|Hp]; rewrite Hp; auto.
  - destruct Hs as [Hp|Hp]; rewrite Hp; split; auto using frame_refl;
      unfold settled; auto.
  - split; auto using frame_refl.
Qed.

Lemma run_settled (evs : list event) (b : bootstrap) :
  settled b -> frame b (run evs b).
Proof.
  revert b. induction evs as [|ev evs IH]; intros b Hs; cbn.
  - apply frame_refl.
  - destruct (deliver_settled ev b Hs) as (F & Hs').
    eapply frame_trans; [exact F | apply IH; exact Hs'].
Qed.

(** What the accepting closure does to a state. *)
Lemma connectionListener_run (s : Socket) (b : bootstrap) :
  let b' := connectionListener s b in
  log b' = log b ++ [ServerClose;
                     NewSocketMessageReader s (encoding b);
                     NewSocketMessageWriter s (encoding b);
                     ConnectResolve (channel_of s (encoding b))] /\
  server_phase b' = Closed /\
  encoding b' = encoding b /\
  connected b' = resolve (channel_of s (encoding b)) (connected b).
Proof.
  unfold connectionListener, connectResolve, new_SocketMessageWriter,
    new_SocketMessageReader, server_close, channel_of.
  cbn. rewrite <- !app_assoc. cbn. repeat split.
Qed.

Lemma outcome_frame enc acc (b b' : bootstrap) :
  frame b b' -> outcome enc acc b -> outcome enc acc b'.
Proof.
  unfold frame, outcome. intros (_ & C & R & B & _) (HC & HR & HB).
  repeat split; congruence.
Qed.

Lemma run_listening (evs : list event) (b : bootstrap) (a : address) :
  server_phase b = Listening a ->
  outcome (encoding b) None b ->
  outcome (encoding b) (first_accepted true evs) (run evs b).
Proof.
  revert b. induction evs as [|ev evs IH]; intros b Hp Hout; cbn [run fold_left].
  - exact Hout.
  - destruct ev as [|e|s|]; cbn [deliver first_accepted].
    + rewrite Hp. apply IH; assumption.
    + destruct (deliver_error_frame e b) as (F & P).
      rewrite Hp in P.
      assert (E : encoding (deliver_error e b) = encoding b) by apply F.
      rewrite <- E. apply IH; [exact P|].
      rewrite E. eapply outcome_frame; eassumption.
    + rewrite Hp.
      destruct (connectionListener_run s b) as (L & P & E & C).
      eapply outcome_frame.
      * apply run_settled. left. exact P.
      * destruct Hout as (HC & HR & HB). unfold outcome.
        rewrite C, HC, L. observe. rewrite HR, HB. repeat split.
    + apply IH; assumption.
Qed.

Lemma run_binding (evs : list event) (b : bootstrap) (a : address) :
  server_phase b = Binding a ->
  outcome (encoding b) None b ->
  outcome (encoding b) (first_accepted false evs) (run evs b).
Proof.
  revert b. induction evs as [|ev evs IH]; intros b Hp Hout; cbn [run fold_left].
  - exact Hout.
  - destruct ev as [|e|s|]; cbn [deliver first_accepted].
    + rewrite Hp.
      set (b1 := listeningCallback (set_phase (Listening a) b)).
      assert (F : frame b b1).
      { eapply frame_trans; [apply (frame_set_phase (Listening a)) |
                             apply frame_listeningCallback]. }
      assert (E : encoding b1 = encoding b) by apply F.
      rewrite <- E. apply (run_listening evs b1 a); [reflexivity|].
      rewrite E. eapply outcome_frame; eassumption.
    + destruct (deliver_error_frame e b) as (F & P).
      rewrite Hp in P.
      eapply outcome_frame.
      * apply run_settled. right. exact P.
      * eapply outcome_frame; eassumption.
    + rewrite Hp. apply IH; assumption.
    + apply IH; assumption.
Qed.

(** Were the closure run a second time, the settled promise would keep the
    first pair. *)
Lemma connectionListener_again (s1 s2 : Socket) (b : bootstrap) :
  connected b = Pending ->
  connected (connectionListener s2 (connectionListener s1 b)) =
    Fulfilled (channel_of s1 (encoding b)).
Proof.
  intros Hpending.
  destruct (connectionListener_run s1 b) as (_ & _ & _ & C1).
  destruct (connectionListener_run s2 (connectionListener s1 b)) as (_ & _ & _ & C2).
  rewrite C2, C1, Hpending. reflexivity.
Qed.

Lemma first_accepted_without_connection (listening : bool) (evs : list event) :
  existsb is_connection evs = false -> first_accepted listening evs = None.
Proof.
  revert listening. induction evs as [|ev evs IH]; intros listening H; cbn in *.
  - reflexivity.
  - destruct ev; cbn in H; try discriminate; try (apply IH; exact H).
    destruct listening; [apply IH; exact H | reflexivity].
Qed.

Lemma deliver_addresses (ev : event) (b : bootstrap) :
  addresses_used (log (deliver ev b)) = addresses_used (log b).
Proof.
  destruct ev as [|e|s|]; cbn [deliver].
  - destruct (server_phase b); try reflexivity.
    apply (frame_trans b _ _ (frame_set_phase _ b) (frame_listeningCallback _)).
  - apply (deliver_error_frame e b).
  - destruct (server_phase b); try reflexivity.
    destruct (connectionListener_run s b) as (L & _). rewrite L. observe. reflexivity.
  - reflexivity.
Qed.

Lemma run_addresses (evs : list event) (b : bootstrap) :
  addresses_used (log (run evs b)) = addresses_used (log b).
Proof.
  revert b. induction evs as [|ev evs IH]; intros b; cbn.
  - reflexivity.
  - unfold run in IH. rewrite IH. apply deliver_addresses.
Qed.

End NetFacts.

Section NetClaims.
Import JS Net.

(** C2: in both client entry points the accepting closure calls
    [server.close()] before anything else, then wraps the socket and
    resolves the inner promise; over any sequence of server events the
    promise returned by [onConnected] is pending until the first connection
    is handed over and from then on fulfilled with that connection's
    reader/writer pair, the inner promise is resolved exactly once, and no
    other socket is ever wrapped. *)
Theorem client_bootstrap_accepts_once (enc : option string) (evs : list event) :
  (forall (s : Socket) (b : bootstrap),
     log (connectionListener s b) =
       log b ++ [ServerClose;
                 NewSocketMessageReader s (encoding b);
                 NewSocketMessageWriter s (encoding b);
                 ConnectResolve (channel_of s (encoding b))] /\
     server_phase (connectionListener s b) = Closed) /\
  (forall pipeName : string,
     let b := run evs (createClientPipeTransport pipeName enc) in
     onConnected TransportObject b =
       match first_accepted false evs with
       | Some s => Fulfilled (channel_of s (default_encoding enc))
       | None => Pending
       end /\
     channels_resolved (log b) =
       match first_accepted false evs with
       | Some s => [channel_of s (default_encoding enc)]
       | None => []
       end /\
     channels_built (log b) =
       match first_accepted false evs with
       | Some s => [s]
       | None => []
       end) /\
  (forall port : Z,
     let b := run evs (createClientSocketTransport port enc) in
     onConnected TransportObject b =
       match first_accepted false evs with
       | Some s => Fulfilled (channel_of s (default_encoding enc))
       | None => Pending
       end /\
     channels_resolved (log b) =
       match first_accepted false evs with
       | Some s => [channel_of s (default_encoding enc)]
       | None => []
       end /\
     channels_built (log b) =
       match first_accepted false evs with
       | Some s => [s]
       | None => []
       end).
Proof.
  split; [| split].
  - intros s b. destruct (connectionListener_run s b) as (L & P & _). auto.
  - intros pipeName.
    apply (run_binding evs (createClientPipeTransport pipeName enc) (PipePath pipeName)).
    + reflexivity.
    + repeat split.
  - intros port.
    apply (run_binding evs (createClientSocketTransport port enc)
             (TcpPort port "127.0.0.1")).
    + reflexivity.
    + repeat split.
Qed.

(** C5, as claimed, fails: after a failed bind the outer promise is
    rejected with the error, but [reject] is still registered for
    ['error']. *)
Lemma bind_failure_keeps_handler :
  ~ (forall (pipeName : string) (enc : option string) (e : value),
       let b := deliver (EvError e) (createClientPipeTransport pipeName enc) in
       outer b = Rejected e /\ listeners "error" (server_emitter b) = []).
Proof.
  intros H.
  destruct (H "pipe" None sample_bind_error) as (_ & Hl).
  discriminate Hl.
Qed.

(** C5, amended: when the bind fails the outer promise is rejected with the
    bind error and [reject] stays registered on the server; [reject] is
    removed when the bind succeeds, in the listening callback, right before
    the outer promise is resolved. *)
Theorem bind_outcome_and_error_handler (enc : option string) (e : value) :
  (forall pipeName : string,
     let b0 := createClientPipeTransport pipeName enc in
     listeners "error" (server_emitter b0) = [OuterRejectFn] /\
     outer (deliver (EvError e) b0) = Rejected e /\
     listeners "error" (server_emitter (deliver (EvError e) b0)) = [OuterRejectFn] /\
     outer (deliver EvListening b0) = Fulfilled TransportObject /\
     listeners "error" (server_emitter (deliver EvListening b0)) = [] /\
     log (deliver EvListening b0) =
       log b0 ++ [ServerRemoveListener "error" OuterRejectFn; OuterResolve]) /\
  (forall port : Z,
     let b0 := createClientSocketTransport port enc in
     listeners "error" (server_emitter b0) = [OuterRejectFn] /\
     outer (deliver (EvError e) b0) = Rejected e /\
     listeners "error" (server_emitter (deliver (EvError e) b0)) = [OuterRejectFn] /\
     outer (deliver EvListening b0) = Fulfilled TransportObject /\
     listeners "error" (server_emitter (deliver EvListening b0)) = [] /\
     log (deliver EvListening b0) =
       log b0 ++ [ServerRemoveListener "error" OuterRejectFn; OuterResolve]).
Proof. split; intros; repeat split. Qed.

(** C9: the client socket entry point listens on the port it is given at
    host 127.0.0.1 and, whatever events follow, uses no other address; the
    server socket entry point dials the port it is given at 127.0.0.1 and
    builds its channel on that socket. *)
Theorem socket_transports_use_loopback (port : Z) (enc : option string)
        (evs : list event) :
  addresses_used (log (run evs (createClientSocketTransport port enc))) =
    [TcpPort port "127.0.0.1"] /\
  addresses_used (snd (createServerSocketTransport port enc)) =
    [TcpPort port "127.0.0.1"] /\
  fst (createServerSocketTransport port enc) =
    channel_of (Dialled (TcpPort port "127.0.0.1")) (default_encoding enc).
Proof.
  split; [| split].
  - rewrite run_addresses. reflexivity.
  - reflexivity.
  - reflexivity.
Qed.

(** C10: over any sequence of server events (errors, closes, connections,
    before or after the bind) the promise returned by [onConnected] of a
    client bootstrap is never rejected, and while no connection arrives it
    stays pending. *)
Theorem onConnected_never_rejects (enc : option string) (evs : list event) :
  (forall pipeName : string,
     let b := run evs (createClientPipeTransport pipeName enc) in
     is_rejected (onConnected TransportObject b) = false /\
     (existsb is_connection evs = false -> onConnected TransportObject b = Pending)) /\
  (forall port : Z,
     let b := run evs (createClientSocketTransport port enc) in
     is_rejected (onConnected TransportObject b) = false /\
     (existsb is_connection evs = false -> onConnected TransportObject b = Pending)).
Proof.
  split.
  - intros pipeName b.
    destruct (run_binding evs (createClientPipeTransport pipeName enc)
                (PipePath pipeName) eq_refl) as (HC & _).
    { repeat split. }
    fold b in HC. unfold onConnected. rewrite HC. split.
    + destruct (first_accepted false evs); reflexivity.
    + intros Hnone. rewrite (first_accepted_without_connection false evs Hnone).
      reflexivity.
  - intros port b.
    destruct (run_binding evs (createClientSocketTransport port enc)
                (TcpPort port "127.0.0.1") eq_refl) as (HC & _).
    { repeat split. }
    fold b in HC. unfold onConnected. rewrite HC. split.
    + destruct (first_accepted false evs); reflexivity.
    + intros Hnone. rewrite (first_accepted_without_connection false evs Hnone).
      reflexivity.
Qed.

Lemma onConnected_never_rejects_witness :
  let evs := [EvListening; EvError sample_bind_error; EvClose] in
  existsb is_connection evs = false /\
  onConnected TransportObject (run evs (createClientPipeTransport "pipe" None)) = Pending /\
  onConnected TransportObject (run evs (createClientSocketTransport 6009 None)) = Pending.
Proof.
  split; [reflexivity | split].
  - apply (proj1 (onConnected_never_rejects None
                    [EvListening; EvError sample_bind_error; EvClose]) "pipe").
    reflexivity.
  - apply (proj2 (onConnected_never_rejects None
                    [EvListening; EvError sample_bind_error; EvClose]) 6009%Z).
    reflexivity.
Defined.

End NetClaims.

(** ** Pipe names *)

Section PipeNameFacts.
Import PipeName.

Lemma string_length_app (s1 s2 : string) :
  String.length (s1 ++ s2)%string = String.length s1 + String.length s2.
Proof. induction s1 as [|c s1 IH]; cbn; [reflexivity | rewrite IH; reflexivity]. Qed.

Lemma get_at_length (s1 s2 : string) :
  String.get (String.length s1) (s1 ++ s2)%string = String.get 0 s2.
Proof. symmetry. apply (append_correct2 s1 s2 0). Qed.

Lemma randomBytes_length (source : nat -> Byte.byte) (n : nat) :
  List.length (randomBytes source n) = n.
Proof. unfold randomBytes. rewrite length_map, length_seq. reflexivity. Qed.

Lemma toString_hex_length (bs : list Byte.byte) :
  String.length (toString_hex bs) = 2 * List.length bs.
Proof.
  induction bs as [|b bs IH]; cbn [toString_hex List.length].
  - reflexivity.
  - rewrite string_length_app, IH. cbn. lia.
Qed.

Lemma byte_hex_digits (b : Byte.byte) : all_hex (byte_hex b) = true.
Proof. destruct b; reflexivity. Qed.

Lemma all_hex_app (s1 s2 : string) :
  all_hex (s1 ++ s2)%string = all_hex s1 && all_hex s2.
Proof.
  induction s1 as [|c s1 IH]; cbn; [reflexivity|].
  rewrite IH, andb_assoc. reflexivity.
Qed.

Lemma toString_hex_digits (bs : list Byte.byte) : all_hex (toString_hex bs) = true.
Proof.
  induction bs as [|b bs IH]; cbn [toString_hex]; [reflexivity|].
  rewrite all_hex_app, byte_hex_digits, IH. reflexivity.
Qed.

Lemma parse_byte_hex (b : Byte.byte) (rest : string) :
  parse_hex (byte_hex b ++ rest)%string =
    match parse_hex rest with
    | Some bs => Some (b :: bs)
    | None => None
    end.
Proof. destruct b; reflexivity. Qed.

(** The bytes can be read back from their rendering: nothing of the random
    value is lost in the name. *)
Lemma parse_toString_hex (bs : list Byte.byte) : parse_hex (toString_hex bs) = Some bs.
Proof.
  induction bs as [|b bs IH]; cbn [toString_hex]; [reflexivity|].
  rewrite parse_byte_hex, IH. reflexivity.
Qed.

Lemma toString_hex_inj (bs1 bs2 : list Byte.byte) :
  toString_hex bs1 = toString_hex bs2 -> bs1 = bs2.
Proof.
  intros H. apply (f_equal parse_hex) in H.
  rewrite !parse_toString_hex in H. congruence.
Qed.

(** C6, as claimed, fails: the name generated on win32 is not of the shape
    with a 32-digit random part, and neither is the name generated
    elsewhere (here with the temporary directory [/tmp]). *)
Lemma pipe_name_is_not_32_digits :
  ~ windows_form_32
      (generateRandomPipeName "win32" "/tmp" posix_join (fun _ => Byte.x00)) /\
  ~ posix_form_32 "/tmp"
      (generateRandomPipeName "linux" "/tmp" posix_join (fun _ => Byte.x00)).
Proof.
  split.
  - intros (prefix & random & Hlen & _ & Heq).
    remember (generateRandomPipeName _ _ _ _) as name eqn:Hname in Heq.
    vm_compute in Hname. subst name.
    assert (Hp : String.length prefix = 24).
    { apply (f_equal String.length) in Heq.
      rewrite !string_length_app in Heq. cbn in Heq. lia. }
    apply (f_equal (String.get 33)) in Heq. cbn in Heq.
    rewrite <- Hp, get_at_length in Heq. discriminate Heq.
  - intros (prefix & random & Hlen & _ & Heq).
    remember (generateRandomPipeName _ _ _ _) as name eqn:Hname in Heq.
    vm_compute in Hname. subst name.
    assert (Hp : String.length prefix = 16).
    { apply (f_equal String.length) in Heq.
      rewrite !string_length_app in Heq. cbn in Heq. lia. }
    apply (f_equal (String.get 21)) in Heq. cbn in Heq.
    rewrite <- Hp, get_at_length in Heq. discriminate Heq.
Qed.

(** C6, amended: the name embeds the 21 bytes (168 bits) drawn from
    [randomBytes], rendered as 42 lowercase hexadecimal digits from which the
    bytes can be read back; on win32 it is
    [\\.\pipe\vscode-jsonrpc-<42 digits>-sock], on every other platform it is
    [path.join] of the temporary directory and [vscode-<42 digits>.sock]. *)
Theorem pipe_name_shape (platform tmpdir : string)
        (path_join : string -> string -> string) (source : nat -> Byte.byte) :
  let random := randomBytes source 21 in
  let randomSuffix := toString_hex random in
  List.length random = 21 /\
  String.length randomSuffix = 42 /\
  all_hex randomSuffix = true /\
  parse_hex randomSuffix = Some random /\
  generateRandomPipeName platform tmpdir path_join source =
    if (platform =? "win32")%string
    then ("\\.\pipe\vscode-jsonrpc-" ++ randomSuffix ++ "-sock")%string
    else path_join tmpdir ("vscode-" ++ randomSuffix ++ ".sock")%string.
Proof.
  intros random randomSuffix. subst randomSuffix random.
  split; [apply randomBytes_length |].
  split; [rewrite toString_hex_length, randomBytes_length; reflexivity |].
  split; [apply toString_hex_digits |].
  split; [apply parse_toString_hex |].
  reflexivity.
Qed.

Lemma string_app_assoc (s1 s2 s3 : string) :
  ((s1 ++ s2) ++ s3)%string = (s1 ++ (s2 ++ s3))%string.
Proof. induction s1 as [|c s1 IH]; cbn; [reflexivity | rewrite IH; reflexivity]. Qed.

Lemma string_app_empty (s : string) : (s ++ "")%string = s.
Proof. induction s as [|c s IH]; cbn; [reflexivity | rewrite IH; reflexivity]. Qed.

Lemma hex_char_is_no_slash (c : ascii) :
  is_hex_char c = true -> (c =? "/")%char = false.
Proof.
  destruct c as [[] [] [] [] [] [] [] []]; cbn; intros H; try discriminate H; reflexivity.
Qed.

Lemma split_slash_hex (acc s rest : string) :
  all_hex s = true ->
  split_slash acc (s ++ rest)%string = split_slash (acc ++ s)%string rest.
Proof.
  revert acc. induction s as [|c s IH]; intros acc H; cbn.
  - rewrite string_app_empty. reflexivity.
  - cbn in H. apply andb_prop in H. destruct H as (Hc & Hs).
    rewrite (hex_char_is_no_slash c Hc), (IH _ Hs), string_app_assoc. reflexivity.
Qed.

Lemma ends_with_slash_app (s1 s2 : string) :
  s2 <> EmptyString -> ends_with_slash (s1 ++ s2)%string = ends_with_slash s2.
Proof.
  intros Hne. induction s1 as [|c s1 IH]; cbn; [reflexivity|].
  destruct (s1 ++ s2)%string eqn:E.
  - destruct s1; [cbn in E; contradiction | discriminate E].
  - exact IH.
Qed.

(** With POSIX [path.join] and the temporary directory [/tmp], the name is
    the file name appended to the directory. *)
Lemma pipe_name_in_tmp (source : nat -> Byte.byte) :
  generateRandomPipeName "linux" "/tmp" posix_join source =
    ("/tmp/vscode-" ++ toString_hex (randomBytes source 21) ++ ".sock")%string.
Proof.
  unfold generateRandomPipeName.
  generalize (toString_hex_digits (randomBytes source 21)).
  generalize (toString_hex (randomBytes source 21)). intros hex Hhex.
  cbn [String.eqb Ascii.eqb Bool.eqb]. cbn [posix_join append].
  unfold posix_normalize. cbn [append starts_with_slash Ascii.eqb Bool.eqb negb].
  assert (Hsplit :
    split_slash "" ("/tmp/vscode-" ++ hex ++ ".sock")%string =
      [""; "tmp"; ("vscode-" ++ hex ++ ".sock")]%string).
  { cbn. rewrite (split_slash_hex _ hex ".sock" Hhex). cbn.
    rewrite !string_app_assoc. reflexivity. }
  assert (Hend : ends_with_slash ("/tmp/vscode-" ++ hex ++ ".sock")%string = false).
  { change ("/tmp/vscode-" ++ hex ++ ".sock")%string
      with (("/tmp/vscode-" ++ hex) ++ ".sock")%string.
    rewrite ends_with_slash_app by discriminate. reflexivity. }
  cbn [append] in Hsplit, Hend. rewrite Hsplit, Hend. reflexivity.
Qed.

End PipeNameFacts.

(** ** Socket-backed writer *)

Section StreamClaims.
Import JS Stream.

Lemma socket_destroy_twice (s : Socket) :
  handle_closes (socket_destroy (socket_destroy s)) = handle_closes (socket_destroy s) /\
  destroyed (socket_destroy (socket_destroy s)) = true.
Proof. split; reflexivity. Qed.

(** Every [dispose] asks the socket to destroy itself. *)
Lemma dispose_destroy_calls (Base : Type) (super_dispose : Base -> result Base)
      (w w' : SocketMessageWriter Base) :
  dispose super_dispose w = Ok w' ->
  destroy_calls (socket w') = S (destroy_calls (socket w)).
Proof.
  unfold dispose. destruct (super_dispose (base w)); intros H; inversion H. reflexivity.
Qed.

(** C8: with an inherited [dispose] that does not throw, disposing a writer
    on an open socket twice returns normally both times and the socket's
    handle is closed once, by the first call; the second call reaches a
    socket that is already destroyed. *)
Theorem double_dispose_closes_once (Base : Type) (super_dispose : Base -> result Base)
        (w : SocketMessageWriter Base) :
  (forall b : Base, exists b', super_dispose b = Ok b') ->
  destroyed (socket w) = false ->
  exists w1 w2,
    dispose super_dispose w = Ok w1 /\
    dispose super_dispose w1 = Ok w2 /\
    handle_closes (socket w1) = S (handle_closes (socket w)) /\
    handle_closes (socket w2) = S (handle_closes (socket w)) /\
    destroyed (socket w2) = true.
Proof.
  intros Hsuper Hopen.
  destruct (Hsuper (base w)) as (b1 & H1).
  destruct (Hsuper b1) as (b2 & H2).
  exists {| base := b1; socket := socket_destroy (socket w) |}.
  exists {| base := b2; socket := socket_destroy (socket_destroy (socket w)) |}.
  unfold dispose. cbn [base socket]. rewrite H1, H2.
  repeat split; cbn; rewrite ?Hopen; reflexivity.
Qed.

Lemma double_dispose_closes_once_witness :
  exists w1 w2,
    dispose emitters_dispose live_writer = Ok w1 /\
    dispose emitters_dispose w1 = Ok w2 /\
    handle_closes (socket w1) = 1 /\
    handle_closes (socket w2) = 1 /\
    destroyed (socket w2) = true.
Proof.
  apply (double_dispose_closes_once Emitters emitters_dispose live_writer).
  - intros b. eexists. reflexivity.
  - reflexivity.
Defined.

End StreamClaims.

(** ** Connection factory *)

Section FactoryClaims.
Import JS Factory.

Lemma wrapped_options_are_no_strategy (options : value) :
  has_cancelUndispatched (as_ConnectionOptions options) = false.
Proof. reflexivity. Qed.

Lemma isMessageReader_object (members : list (string * value)) :
  isMessageReader (VObject members) =
    Ok (negb (is_undefined (lookup "listen" members)) &&
        is_undefined (lookup "read" members)).
Proof.
  unfold isMessageReader. cbn.
  destruct (is_undefined (lookup "listen" members)); reflexivity.
Qed.

Lemma isMessageWriter_object (members : list (string * value)) :
  isMessageWriter (VObject members) =
    Ok (negb (is_undefined (lookup "write" members)) &&
        is_undefined (lookup "end" members)).
Proof.
  unfold isMessageWriter. cbn.
  destruct (is_undefined (lookup "write" members)); reflexivity.
Qed.

Lemma isMessageReader_value (v : value) :
  isMessageReader v =
    if nullish v then Throw TypeError
    else Ok (negb (is_undefined (get v "listen")) && is_undefined (get v "read")).
Proof.
  destruct v; try reflexivity. apply isMessageReader_object.
Qed.

Lemma isMessageWriter_value (v : value) :
  isMessageWriter v =
    if nullish v then Throw TypeError
    else Ok (negb (is_undefined (get v "write")) && is_undefined (get v "end")).
Proof.
  destruct v; try reflexivity. apply isMessageWriter_object.
Qed.

(** C7, as claimed, fails: an input without a [listen] member is not
    always wrapped as a stream reader.  Given [undefined] as input the
    factory throws a [TypeError] from the member probe and hands nothing to
    the common constructor; and wrapping an output can throw as well, here
    on a writable without [on]. *)
Lemma factory_does_not_wrap_every_input :
  let create := createMessageConnection _ (fun r w l o => (r, w, l, o)) noop_logger
                  has_cancelUndispatched throws_without_on in
  create VUndefined sample_writer VUndefined VUndefined = Throw TypeError /\
  create VUndefined sample_writer VUndefined VUndefined <>
    Ok (NewStreamMessageReader VUndefined, WriterObject sample_writer,
        noop_logger, VUndefined) /\
  create sample_reader sample_sink VUndefined VUndefined = Throw TypeError /\
  create sample_reader sample_sink VUndefined VUndefined <>
    Ok (ReaderObject sample_reader, NewStreamMessageWriter sample_sink,
        noop_logger, VUndefined).
Proof.
  repeat split; try reflexivity; intros H; discriminate H.
Qed.

(** C7, amended: for every input and output, [createMessageConnection]
    throws a [TypeError] when either is [undefined] or [null]; otherwise it
    keeps the input itself when its [listen] member is defined and its
    [read] member is not, and builds a [StreamMessageReader] around it if
    not; keeps the output itself when its [write] member is defined and its
    [end] member is not, and builds a [StreamMessageWriter] around it if
    not, passing on whatever that constructor throws; takes [NullLogger]
    when the logger is missing; and hands the common constructor
    [{ connectionStrategy: options }] when [options] is a bare strategy.  So
    a bare strategy and the options structure wrapping it give the same
    result, provided the wrapping structure is not itself taken for a
    strategy; [createProtocolConnection] normalises [options] in the same
    way before it delegates. *)
Theorem connection_factory_normalizes
        (MessageConnection : Type)
        (_createMessageConnection :
           MessageReader -> MessageWriter -> value -> value -> MessageConnection)
        (NullLogger : value) (ConnectionStrategy_is : value -> bool)
        (StreamMessageWriter_throws : value -> option value)
        (input output logger options : value) :
  let create := createMessageConnection MessageConnection _createMessageConnection
                  NullLogger ConnectionStrategy_is StreamMessageWriter_throws in
  let wrapped := VObject [("connectionStrategy", options)] in
  let reader := if negb (is_undefined (get input "listen")) &&
                   is_undefined (get input "read")
                then ReaderObject input else NewStreamMessageReader input in
  let normalized := if ConnectionStrategy_is options then wrapped else options in
  let built (lg : value) :=
    if nullish input || nullish output then Throw TypeError
    else if negb (is_undefined (get output "write")) &&
            is_undefined (get output "end")
         then Ok (_createMessageConnection reader (WriterObject output) lg normalized)
         else match StreamMessageWriter_throws output with
              | Some e => Throw e
              | None => Ok (_createMessageConnection reader
                              (NewStreamMessageWriter output) lg normalized)
              end in
  create input output logger options =
    built (if truthy logger then logger else NullLogger) /\
  create input output VUndefined options = built NullLogger /\
  (ConnectionStrategy_is options = true ->
   ConnectionStrategy_is wrapped = false ->
   create input output logger options = create input output logger wrapped) /\
  (forall (ProtocolConnection : Type)
          (delegate : value -> value -> value -> value -> ProtocolConnection),
     createProtocolConnection ProtocolConnection delegate ConnectionStrategy_is
       input output logger options =
       delegate input output logger normalized).
Proof.
  intros create wrapped reader normalized built.
  assert (Hshape : forall lg opts,
    create input output lg opts =
      if nullish input || nullish output then Throw TypeError
      else if negb (is_undefined (get output "write")) &&
              is_undefined (get output "end")
           then Ok (_createMessageConnection reader (WriterObject output)
                      (if truthy lg then lg else NullLogger)
                      (if ConnectionStrategy_is opts
                       then VObject [("connectionStrategy", opts)] else opts))
           else match StreamMessageWriter_throws output with
                | Some e => Throw e
                | None => Ok (_createMessageConnection reader
                                (NewStreamMessageWriter output)
                                (if truthy lg then lg else NullLogger)
                                (if ConnectionStrategy_is opts
                                 then VObject [("connectionStrategy", opts)] else opts))
                end).
  { intros lg opts. subst create reader.
    unfold createMessageConnection, new_StreamMessageWriter, as_ConnectionOptions.
    rewrite isMessageReader_value, isMessageWriter_value.
    destruct (nullish input); [reflexivity|].
    destruct (nullish output); [reflexivity|].
    cbn [orb bind_result].
    destruct (negb (is_undefined (get output "write")) &&
              is_undefined (get output "end")).
    - cbn [bind_result]. destruct (truthy lg); reflexivity.
    - destruct (StreamMessageWriter_throws output); cbn [bind_result];
        [reflexivity | destruct (truthy lg); reflexivity]. }
  split; [apply Hshape |].
  split; [apply (Hshape VUndefined) |].
  split.
  - intros His Hwrapped. rewrite !Hshape. subst wrapped.
    rewrite His, Hwrapped. reflexivity.
  - intros ProtocolConnection delegate. reflexivity.
Qed.

Example adapted_pair_is_kept :
  createMessageConnection _ (fun r w l o => (r, w, l, o)) noop_logger
    has_cancelUndispatched throws_without_on
    sample_reader sample_writer VUndefined VUndefined =
  Ok (ReaderObject sample_reader, WriterObject sample_writer, noop_logger, VUndefined).
Proof. reflexivity. Qed.

Example raw_streams_are_wrapped :
  createMessageConnection _ (fun r w l o => (r, w, l, o)) noop_logger
    has_cancelUndispatched throws_without_on
    sample_readable sample_writable VNull sample_strategy =
  Ok (NewStreamMessageReader sample_readable, NewStreamMessageWriter sample_writable,
      noop_logger, VObject [("connectionStrategy", sample_strategy)]).
Proof. reflexivity. Qed.

Lemma connection_factory_normalizes_witness :
  createMessageConnection _ (fun r w l o => (r, w, l, o)) noop_logger
    has_cancelUndispatched throws_without_on
    sample_readable sample_writer VUndefined sample_strategy =
  createMessageConnection _ (fun r w l o => (r, w, l, o)) noop_logger
    has_cancelUndispatched throws_without_on
    sample_readable sample_writer VUndefined
    (VObject [("connectionStrategy", sample_strategy)]).
Proof.
  apply (connection_factory_normalizes _ (fun r w l o => (r, w, l, o)) noop_logger
           has_cancelUndispatched throws_without_on
           sample_readable sample_writer VUndefined sample_strategy);
    reflexivity.
Defined.

End FactoryClaims.

(* ===================================================================== *)
(** * Further properties *)
(* ===================================================================== *)

(** ** Process-backed channel over a whole run *)

Section IPCRuns.
Import JS IPC.

Lemma perform_process (a : action) (w : IPCMessageWriter) :
  process (fst (perform a w)) = process w.
Proof.
  destruct a as [msg | msg error]; unfold perform.
  - destruct (send (process w)) as [f|] eqn:Hsend.
    + destruct (f msg) as [e|] eqn:Hf.
      * rewrite (write_thrown msg w f e Hsend Hf). reflexivity.
      * rewrite (write_queued msg w f Hsend Hf). reflexivity.
    + rewrite (write_without_send msg w Hsend). reflexivity.
  - destruct (truthy error) eqn:Herr.
    + rewrite (send_callback_failure msg error w Herr). reflexivity.
    + rewrite (send_callback_success msg error w Herr). reflexivity.
Qed.

Lemma perform_effects (a : action) (w : IPCMessageWriter) :
  snd (perform a w) =
    match a with
    | Write msg =>
        match send (process w) with
        | Some f =>
            match f msg with
            | SendThrows e =>
                [NativeSend msg;
                 Notify (FireError e (Some msg) (Some (S (errorCount w))))]
            | SendQueued => [NativeSend msg]
            end
        | None => []
        end
    | Completed msg error =>
        if truthy error
        then [Notify (FireError error (Some msg) (Some (S (S (errorCount w)))))]
        else []
    end.
Proof.
  destruct a as [msg | msg error]; unfold perform.
  - destruct (send (process w)) as [f|] eqn:Hsend.
    + destruct (f msg) as [e|] eqn:Hf.
      * rewrite (write_thrown msg w f e Hsend Hf). reflexivity.
      * rewrite (write_queued msg w f Hsend Hf). reflexivity.
    + rewrite (write_without_send msg w Hsend). reflexivity.
  - destruct (truthy error) eqn:Herr.
    + rewrite (send_callback_failure msg error w Herr). reflexivity.
    + rewrite (send_callback_success msg error w Herr). reflexivity.
Qed.

Lemma perform_count (a : action) (w : IPCMessageWriter) :
  errorCount (fst (perform a w)) =
    if is_reset a then 0 else errorCount w + weight (process w) a.
Proof.
  destruct a as [msg | msg error]; unfold perform, is_reset, weight.
  - destruct (send (process w)) as [f|] eqn:Hsend.
    + destruct (f msg) as [e|] eqn:Hf.
      * rewrite (write_thrown msg w f e Hsend Hf). cbn. lia.
      * rewrite (write_queued msg w f Hsend Hf). cbn. lia.
    + rewrite (write_without_send msg w Hsend). cbn. lia.
  - destruct (truthy error) eqn:Herr.
    + rewrite (send_callback_failure msg error w Herr). cbn. lia.
    + rewrite (send_callback_success msg error w Herr). reflexivity.
Qed.

Lemma perform_all_cons (a : action) (acts : list action) (w : IPCMessageWriter) :
  perform_all (a :: acts) w =
    (fst (perform_all acts (fst (perform a w))),
     snd (perform a w) ++ snd (perform_all acts (fst (perform a w)))).
Proof.
  cbn [perform_all]. destruct (perform a w) as [w1 t1]. cbn [fst snd].
  destruct (perform_all acts w1) as [w2 t2]. reflexivity.
Qed.

Lemma perform_all_app (acts1 acts2 : list action) (w : IPCMessageWriter) :
  perform_all (acts1 ++ acts2) w =
    (fst (perform_all acts2 (fst (perform_all acts1 w))),
     snd (perform_all acts1 w) ++ snd (perform_all acts2 (fst (perform_all acts1 w)))).
Proof.
  revert w. induction acts1 as [|a acts1 IH]; intros w.
  - cbn. destruct (perform_all acts2 w). reflexivity.
  - rewrite <- app_comm_cons, !perform_all_cons, IH. cbn [fst snd].
    rewrite app_assoc. reflexivity.
Qed.

Lemma perform_all_process (acts : list action) (w : IPCMessageWriter) :
  process (fst (perform_all acts w)) = process w.
Proof.
  revert w. induction acts as [|a acts IH]; intros w.
  - reflexivity.
  - rewrite perform_all_cons. cbn [fst]. rewrite IH. apply perform_process.
Qed.

Lemma since_last_reset_none (acts : list action) :
  existsb is_reset acts = false -> since_last_reset acts = acts.
Proof.
  destruct acts as [|a acts]; cbn; [reflexivity|].
  intros H. apply orb_false_elim in H. destruct H as (Ha & Hr).
  rewrite Hr, Ha. reflexivity.
Qed.

(** Every message written on an endpoint that can send reaches the native
    [send] once, in the order written, whatever the sends and their
    completions report; on an endpoint that cannot send nothing is ever
    sent. *)
Theorem every_write_is_sent_once (acts : list action) (w : IPCMessageWriter) :
  native_sends (snd (perform_all acts w)) =
    match send (process w) with
    | Some _ => written acts
    | None => []
    end.
Proof.
  revert w. induction acts as [|a acts IH]; intros w.
  - cbn. destruct (send (process w)); reflexivity.
  - rewrite perform_all_cons. cbn [snd].
    unfold native_sends at 1. rewrite flat_map_app.
    fold (native_sends (snd (perform a w))).
    fold (native_sends (snd (perform_all acts (fst (perform a w))))).
    rewrite IH, perform_process, perform_effects.
    destruct a as [msg | msg error]; cbn [written flat_map].
    + destruct (send (process w)) as [f|]; [|reflexivity].
      destruct (f msg); reflexivity.
    + destruct (truthy error); destruct (send (process w)); reflexivity.
Qed.

(** The count after a run: zero if some completion without error occurred,
    the initial count otherwise, plus one for every throwing send and two
    for every completion with an error since the last completion without
    error. *)
Theorem errorCount_after_run (acts : list action) (w : IPCMessageWriter) :
  errorCount (fst (perform_all acts w)) =
    (if existsb is_reset acts then 0 else errorCount w) +
    list_sum (map (weight (process w)) (since_last_reset acts)).
Proof.
  revert w. induction acts as [|a acts IH]; intros w.
  - cbn. lia.
  - rewrite perform_all_cons. cbn [fst].
    rewrite IH, perform_process, perform_count.
    cbn [existsb since_last_reset].
    destruct (existsb is_reset acts) eqn:Hr.
    + rewrite orb_true_r. reflexivity.
    + rewrite orb_false_r, (since_last_reset_none acts Hr).
      destruct (is_reset a); cbn [map]; [reflexivity |].
      unfold list_sum. cbn [fold_right]. lia.
Qed.

(** Whatever came before, one completion without error brings the count to
    zero and fires nothing. *)
Theorem completion_without_error_resets (acts : list action) (w : IPCMessageWriter)
        (msg error : value) :
  truthy error = false ->
  perform_all (acts ++ [Completed msg error]) w =
    (with_count 0 (fst (perform_all acts w)), snd (perform_all acts w)).
Proof.
  intros Herr. rewrite perform_all_app. cbn [perform_all perform].
  rewrite (send_callback_success msg error _ Herr). cbn [fst snd].
  rewrite app_nil_r. reflexivity.
Qed.

Lemma completion_without_error_resets_witness :
  perform_all
    ([Write sample_message; Completed sample_message sample_error;
      Completed sample_message sample_error] ++ [Completed sample_message VNull])
    {| process := accepting_process; errorCount := 0 |} =
  ({| process := accepting_process; errorCount := 0 |},
   [NativeSend sample_message;
    Notify (FireError sample_error (Some sample_message) (Some 2));
    Notify (FireError sample_error (Some sample_message) (Some 4))]).
Proof.
  apply (completion_without_error_resets
           [Write sample_message; Completed sample_message sample_error;
            Completed sample_message sample_error]
           {| process := accepting_process; errorCount := 0 |}
           sample_message VNull).
  reflexivity.
Defined.

Lemma notifications_app (t1 t2 : list effect) :
  notifications (t1 ++ t2) = notifications t1 ++ notifications t2.
Proof. apply flat_map_app. Qed.

(** What one action fires, after any state: nothing when it meets no
    error, otherwise one error notification with the error met, the action's
    message and the count the writer holds afterwards. *)
Lemma perform_notifications (a : action) (w : IPCMessageWriter) :
  notifications (snd (perform a w)) =
    match failure_of (process w) a with
    | Some error =>
        [FireError error (Some (msg_of a)) (Some (errorCount (fst (perform a w))))]
    | None => []
    end /\
  match failure_of (process w) a with
  | Some _ => 1 <= errorCount (fst (perform a w))
  | None => True
  end.
Proof.
  rewrite perform_effects, perform_count.
  destruct a as [msg | msg error]; cbn [failure_of msg_of is_reset weight].
  - destruct (send (process w)) as [f|]; [|split; [reflexivity | exact I]].
    destruct (f msg) as [e|]; cbn; [|split; [reflexivity | exact I]].
    rewrite Nat.add_1_r. split; [reflexivity | lia].
  - destruct (truthy error); cbn; [|split; [reflexivity | exact I]].
    replace (errorCount w + 2) with (S (S (errorCount w))) by lia.
    split; [reflexivity | lia].
Qed.

Lemma run_notifications_are_errors (acts : list action) (w : IPCMessageWriter) :
  Forall (fun n => exists error msg count,
                     n = FireError error (Some msg) (Some count) /\ 1 <= count)
         (notifications (snd (perform_all acts w))).
Proof.
  revert w. induction acts as [|a acts IH]; intros w.
  - constructor.
  - rewrite perform_all_cons. cbn [snd].
    rewrite notifications_app. apply Forall_app. split; [|apply IH].
    destruct (perform_notifications a w) as (Hn & Hc). rewrite Hn.
    destruct (failure_of (process w) a) as [error|]; constructor; [|constructor].
    exists error, (msg_of a), (errorCount (fst (perform a w))). split; [reflexivity | exact Hc].
Qed.

(** After any run, the next action fires nothing when it meets no error
    and otherwise exactly one error notification, which carries the error it
    met (thrown by the native send or reported by its completion), the
    message of that very action and the count the writer holds right after
    it, a count of at least one.  So every notification fired in a run is an
    error notification with a message and a positive count; [write] and the
    completion callback never fire the close notification. *)
Theorem run_fires_only_counted_errors (acts : list action) (a : action)
        (w : IPCMessageWriter) :
  let before := fst (perform_all acts w) in
  let after := fst (perform a before) in
  notifications (snd (perform_all (acts ++ [a]) w)) =
    notifications (snd (perform_all acts w)) ++
    match failure_of (process w) a with
    | Some error => [FireError error (Some (msg_of a)) (Some (errorCount after))]
    | None => []
    end /\
  match failure_of (process w) a with
  | Some _ => 1 <= errorCount after
  | None => True
  end /\
  Forall (fun n => exists error msg count,
                     n = FireError error (Some msg) (Some count) /\ 1 <= count)
         (notifications (snd (perform_all acts w))).
Proof.
  intros before after. subst after before.
  destruct (perform_notifications a (fst (perform_all acts w))) as (Hn & Hc).
  rewrite perform_all_process in Hn, Hc.
  split; [| split; [exact Hc | apply run_notifications_are_errors]].
  rewrite perform_all_app. cbn [snd]. rewrite notifications_app.
  rewrite perform_all_cons. cbn [snd perform_all]. rewrite app_nil_r, Hn.
  reflexivity.
Qed.

(** [listen(callback)] on a reader: a native ['message'] runs the callback
    on the message, after the listeners registered before and with nothing
    added by the reader itself; ['error'] and ['close'] do not reach the
    callback; a second [listen] adds a second subscription. *)
Theorem listen_subscribes_to_messages (p : Process) (em : emitter listener)
        (callback callback' : listener) (payload : value) :
  let em1 := snd (IPCMessageReader_new p em) in
  let em2 := reader_listen callback em1 in
  native_emit "message" payload em2 = native_emit "message" payload em ++ callback payload /\
  native_emit "error" payload em2 = native_emit "error" payload em1 /\
  native_emit "close" payload em2 = native_emit "close" payload em1 /\
  native_emit "message" payload (reader_listen callback' em2) =
    native_emit "message" payload em ++ callback payload ++ callback' payload.
Proof.
  cbn [IPCMessageReader_new snd]. unfold reader_listen.
  rewrite !native_emit_on. cbn [String.eqb Ascii.eqb Bool.eqb].
  rewrite !app_nil_r, <- app_assoc. repeat split.
Qed.

End IPCRuns.

(** ** The client bootstrap as a state machine *)

Section NetRuns.
Import JS Net.

Lemma count_closes_app (l1 l2 : list call) :
  count_closes (l1 ++ l2) = count_closes l1 + count_closes l2.
Proof. unfold count_closes. rewrite filter_app, length_app. reflexivity. Qed.

Lemma deliver_simulates (a : address) (st : stage) (ev : event) (b : bootstrap) :
  snapshot b = expected a (encoding b) st ->
  snapshot (deliver ev b) = expected a (encoding b) (stage_step st ev) /\
  encoding (deliver ev b) = encoding b.
Proof.
  destruct b as [enc ph em c o lg]. unfold snapshot.
  cbn [server_phase server_emitter outer connected log encoding].
  intros H.
  destruct st as [| |e0|s0]; cbn [expected] in H;
    injection H as Hph Hem Ho Hc Hcl; subst ph em o c;
    destruct ev as [|e|s|]; cbn -[count_closes];
    rewrite ?count_closes_app, ?Hcl; split; reflexivity.
Qed.

Lemma run_simulates (a : address) (evs : list event) (st : stage) (b : bootstrap) :
  snapshot b = expected a (encoding b) st ->
  snapshot (run evs b) = expected a (encoding b) (stages evs st).
Proof.
  revert st b. induction evs as [|ev evs IH]; intros st b H; cbn [run stages fold_left].
  - exact H.
  - destruct (deliver_simulates a st ev b H) as (Hs & He).
    rewrite <- He. apply IH. rewrite He. exact Hs.
Qed.

Lemma pipe_run_snapshot (pipeName : string) (enc : option string) (evs : list event) :
  snapshot (run evs (createClientPipeTransport pipeName enc)) =
    expected (PipePath pipeName) (default_encoding enc) (stages evs Awaiting).
Proof.
  apply (run_simulates (PipePath pipeName) evs Awaiting
           (createClientPipeTransport pipeName enc)).
  reflexivity.
Qed.

Lemma socket_run_snapshot (port : Z) (enc : option string) (evs : list event) :
  snapshot (run evs (createClientSocketTransport port enc)) =
    expected (TcpPort port "127.0.0.1") (default_encoding enc) (stages evs Awaiting).
Proof.
  apply (run_simulates (TcpPort port "127.0.0.1") evs Awaiting
           (createClientSocketTransport port enc)).
  reflexivity.
Qed.



(** The inner promise is fulfilled only on a bootstrap whose outer promise
    is fulfilled, and a bootstrap whose outer promise is rejected never
    fulfils its inner promise: a channel is produced only after a successful
    bind. *)
Theorem channel_only_after_bind (enc : option string) (evs : list event) :
  (forall pipeName : string,
     let b := run evs (createClientPipeTransport pipeName enc) in
     match onConnected TransportObject b, outer b with
     | Fulfilled _, o => o = Fulfilled TransportObject
     | Pending, _ => True
     | Rejected _, _ => False
     end /\
     match outer b with
     | Rejected _ => onConnected TransportObject b = Pending
     | _ => True
     end) /\
  (forall port : Z,
     let b := run evs (createClientSocketTransport port enc) in
     match onConnected TransportObject b, outer b with
     | Fulfilled _, o => o = Fulfilled TransportObject
     | Pending, _ => True
     | Rejected _, _ => False
     end /\
     match outer b with
     | Rejected _ => onConnected TransportObject b = Pending
     | _ => True
     end).
Proof.
  split.
  - intros pipeName b. pose proof (pipe_run_snapshot pipeName enc evs) as H.
    fold b in H. unfold snapshot in H. unfold onConnected.
    destruct (stages evs Awaiting); cbn [expected] in H;
      injection H as _ _ Ho Hc _; rewrite Ho, Hc; split; auto.
  - intros port b. pose proof (socket_run_snapshot port enc evs) as H.
    fold b in H. unfold snapshot in H. unfold onConnected.
    destruct (stages evs Awaiting); cbn [expected] in H;
      injection H as _ _ Ho Hc _; rewrite Ho, Hc; split; auto.
Qed.

(** A server error after any run: while the bind is awaited it rejects the
    outer promise; after a failed bind [reject] runs again and changes
    nothing, so the first error stays; once the bind has succeeded no
    listener is left and the error goes unhandled, leaving both promises as
    they are. *)
Theorem server_error_after_run (enc : option string) (evs : list event) (e : value) :
  (forall pipeName : string,
     let b := run evs (createClientPipeTransport pipeName enc) in
     log (deliver (EvError e) b) =
       log b ++ [match stages evs Awaiting with
                 | Awaiting | Failed _ => OuterReject e
                 | Bound | Connected _ => UnhandledError e
                 end] /\
     outer (deliver (EvError e) b) =
       match stages evs Awaiting with
       | Awaiting => Rejected e
       | _ => outer b
       end /\
     connected (deliver (EvError e) b) = connected b) /\
  (forall port : Z,
     let b := run evs (createClientSocketTransport port enc) in
     log (deliver (EvError e) b) =
       log b ++ [match stages evs Awaiting with
                 | Awaiting | Failed _ => OuterReject e
                 | Bound | Connected _ => UnhandledError e
                 end] /\
     outer (deliver (EvError e) b) =
       match stages evs Awaiting with
       | Awaiting => Rejected e
       | _ => outer b
       end /\
     connected (deliver (EvError e) b) = connected b).
Proof.
  split.
  - intros pipeName b. pose proof (pipe_run_snapshot pipeName enc evs) as H.
    fold b in H. destruct b as [en ph em c o lg]. unfold snapshot in H.
    cbn [server_phase server_emitter outer connected log] in H.
    destruct (stages evs Awaiting); cbn [expected] in H;
      injection H as Hph Hem Ho Hc _; subst ph em o c; repeat split.
  - intros port b. pose proof (socket_run_snapshot port enc evs) as H.
    fold b in H. destruct b as [en ph em c o lg]. unfold snapshot in H.
    cbn [server_phase server_emitter outer connected log] in H.
    destruct (stages evs Awaiting); cbn [expected] in H;
      injection H as Hph Hem Ho Hc _; subst ph em o c; repeat split.
Qed.

(** Whatever channel [onConnected] delivers, its reader and its writer sit
    on the same socket, one that the server handed over in the run, and both
    use the encoding given to the entry point, utf-8 when none was given. *)
Theorem delivered_channel_is_coherent (enc : option string) (evs : list event)
        (r : SocketMessageReader) (w : SocketMessageWriter) :
  (forall pipeName : string,
     onConnected TransportObject (run evs (createClientPipeTransport pipeName enc)) =
       Fulfilled (r, w) ->
     reader_socket r = writer_socket w /\
     In (EvConnection (reader_socket r)) evs /\
     reader_encoding r = default_encoding enc /\
     writer_encoding w = default_encoding enc) /\
  (forall port : Z,
     onConnected TransportObject (run evs (createClientSocketTransport port enc)) =
       Fulfilled (r, w) ->
     reader_socket r = writer_socket w /\
     In (EvConnection (reader_socket r)) evs /\
     reader_encoding r = default_encoding enc /\
     writer_encoding w = default_encoding enc).
Proof.
  assert (Hin : forall l s, first_accepted l evs = Some s -> In (EvConnection s) evs).
  { induction evs as [|ev evs' IH]; intros l s H; cbn in H; [discriminate|].
    destruct ev as [|e0|s0|].
    - right. eapply IH. exact H.
    - destruct l; [right; eapply IH; exact H | discriminate].
    - destruct l.
      + injection H as ->. left. reflexivity.
      + right. eapply IH. exact H.
    - right. eapply IH. exact H. }
  split.
  - intros pipeName H.
    destruct (run_binding evs (createClientPipeTransport pipeName enc)
                (PipePath pipeName) eq_refl) as (HC & _).
    { repeat split. }
    unfold onConnected in H. rewrite HC in H.
    destruct (first_accepted false evs) as [s|] eqn:Hs; [|discriminate].
    injection H as <- <-. cbn. repeat split. eapply Hin. exact Hs.
  - intros port H.
    destruct (run_binding evs (createClientSocketTransport port enc)
                (TcpPort port "127.0.0.1") eq_refl) as (HC & _).
    { repeat split. }
    unfold onConnected in H. rewrite HC in H.
    destruct (first_accepted false evs) as [s|] eqn:Hs; [|discriminate].
    injection H as <- <-. cbn. repeat split. eapply Hin. exact Hs.
Qed.

Lemma delivered_channel_is_coherent_witness :
  let evs := [EvConnection (Incoming 7); EvListening; EvConnection (Incoming 8);
              EvConnection (Incoming 9)] in
  let r := {| reader_socket := Incoming 8; reader_encoding := "ascii" |} in
  let w := {| writer_socket := Incoming 8; writer_encoding := "ascii" |} in
  (reader_socket r = writer_socket w /\
   In (EvConnection (reader_socket r)) evs /\
   reader_encoding r = default_encoding (Some "ascii") /\
   writer_encoding w = default_encoding (Some "ascii")) /\
  (reader_socket r = writer_socket w /\
   In (EvConnection (reader_socket r)) evs /\
   reader_encoding r = default_encoding (Some "ascii") /\
   writer_encoding w = default_encoding (Some "ascii")).
Proof.
  split.
  - apply (proj1 (delivered_channel_is_coherent (Some "ascii")
             [EvConnection (Incoming 7); EvListening; EvConnection (Incoming 8);
              EvConnection (Incoming 9)]
             {| reader_socket := Incoming 8; reader_encoding := "ascii" |}
             {| writer_socket := Incoming 8; writer_encoding := "ascii" |}) "pipe").
    reflexivity.
  - apply (proj2 (delivered_channel_is_coherent (Some "ascii")
             [EvConnection (Incoming 7); EvListening; EvConnection (Incoming 8);
              EvConnection (Incoming 9)]
             {| reader_socket := Incoming 8; reader_encoding := "ascii" |}
             {| writer_socket := Incoming 8; writer_encoding := "ascii" |}) 6009%Z).
    reflexivity.
Defined.

End NetRuns.

(** ** Pipe names: the random part *)

Section PipeNameRuns.
Import PipeName.

Lemma substring_middle (before middle rest : string) :
  substring (String.length before) (String.length middle)
            (before ++ middle ++ rest)%string = middle.
Proof.
  induction before as [|c before IH]; cbn [String.length append].
  - induction middle as [|c middle IH]; cbn [String.length append].
    + destruct rest; reflexivity.
    + cbn [substring]. rewrite IH. reflexivity.
  - cbn [substring]. exact IH.
Qed.

Lemma substring_at (n m : nat) (before middle rest : string) :
  n = String.length before -> m = String.length middle ->
  substring n m (before ++ middle ++ rest)%string = middle.
Proof. intros -> ->. apply substring_middle. Qed.

Lemma windows_name_random_part (tmpdir : string) (path_join : string -> string -> string)
      (source : nat -> Byte.byte) :
  substring 24 42 (generateRandomPipeName "win32" tmpdir path_join source) =
    toString_hex (randomBytes source 21).
Proof.
  unfold generateRandomPipeName. cbn [String.eqb Ascii.eqb Bool.eqb].
  apply substring_at.
  - reflexivity.
  - rewrite toString_hex_length, randomBytes_length. reflexivity.
Qed.

Lemma tmp_name_random_part (source : nat -> Byte.byte) :
  substring 12 42 (generateRandomPipeName "linux" "/tmp" posix_join source) =
    toString_hex (randomBytes source 21).
Proof.
  rewrite pipe_name_in_tmp.
  apply substring_at.
  - reflexivity.
  - rewrite toString_hex_length, randomBytes_length. reflexivity.
Qed.

(** The random bytes can be read back from a generated name: the 42
    characters after the fixed prefix parse as hexadecimal to the 21 bytes
    that [randomBytes] returned (on win32 for any temporary directory; on
    other platforms shown for [/tmp] with POSIX [path.join]). *)
Theorem pipe_name_random_round_trip (tmpdir : string)
        (path_join : string -> string -> string) (source : nat -> Byte.byte) :
  parse_hex (substring 24 42 (generateRandomPipeName "win32" tmpdir path_join source)) =
    Some (randomBytes source 21) /\
  parse_hex (substring 12 42 (generateRandomPipeName "linux" "/tmp" posix_join source)) =
    Some (randomBytes source 21).
Proof.
  rewrite windows_name_random_part, tmp_name_random_part, parse_toString_hex.
  split; reflexivity.
Qed.

(** Two generated names coincide only if the random bytes drawn coincide:
    different draws give different names. *)
Theorem pipe_names_differ_with_random_bytes (tmpdir : string)
        (path_join : string -> string -> string) (source1 source2 : nat -> Byte.byte) :
  randomBytes source1 21 <> randomBytes source2 21 ->
  generateRandomPipeName "win32" tmpdir path_join source1 <>
    generateRandomPipeName "win32" tmpdir path_join source2 /\
  generateRandomPipeName "linux" "/tmp" posix_join source1 <>
    generateRandomPipeName "linux" "/tmp" posix_join source2.
Proof.
  intros Hdiff. split; intros Heq; apply Hdiff, toString_hex_inj.
  - rewrite <- (windows_name_random_part tmpdir path_join source1),
            <- (windows_name_random_part tmpdir path_join source2), Heq.
    reflexivity.
  - rewrite <- (tmp_name_random_part source1), <- (tmp_name_random_part source2), Heq.
    reflexivity.
Qed.

Lemma pipe_names_differ_with_random_bytes_witness :
  generateRandomPipeName "win32" "/tmp" posix_join (fun _ => Byte.x00) <>
    generateRandomPipeName "win32" "/tmp" posix_join
      (fun n => if Nat.eqb n 20 then Byte.x01 else Byte.x00) /\
  generateRandomPipeName "linux" "/tmp" posix_join (fun _ => Byte.x00) <>
    generateRandomPipeName "linux" "/tmp" posix_join
      (fun n => if Nat.eqb n 20 then Byte.x01 else Byte.x00).
Proof.
  apply (pipe_names_differ_with_random_bytes "/tmp" posix_join
           (fun _ => Byte.x00) (fun n => if Nat.eqb n 20 then Byte.x01 else Byte.x00)).
  vm_compute. discriminate.
Defined.

End PipeNameRuns.

(** ** Socket-backed writer: any number of disposes *)

Section StreamRuns.
Import JS Stream.

Lemma dispose_times_destroyed (Base : Type) (super_dispose : Base -> result Base)
      (n : nat) (w : SocketMessageWriter Base) :
  (forall b : Base, exists b', super_dispose b = Ok b') ->
  destroyed (socket w) = true ->
  exists w',
    dispose_times super_dispose n w = Ok w' /\
    handle_closes (socket w') = handle_closes (socket w) /\
    destroy_calls (socket w') = n + destroy_calls (socket w) /\
    destroyed (socket w') = true.
Proof.
  intros Hsuper. revert w. induction n as [|n IH]; intros w Hd.
  - exists w. repeat split. exact Hd.
  - cbn [dispose_times]. unfold dispose.
    destruct (Hsuper (base w)) as (b1 & H1). rewrite H1.
    destruct (IH {| base := b1; socket := socket_destroy (socket w) |} eq_refl)
      as (w' & Hrun & Hc & Hn & Hd').
    exists w'. cbn [socket socket_destroy handle_closes destroy_calls] in Hc, Hn.
    rewrite Hd in Hc. repeat split; [exact Hrun | exact Hc | lia | exact Hd'].
Qed.

(** With an inherited [dispose] that does not throw, disposing a writer on
    an open socket any number of times, at least once, returns normally
    every time; the socket is asked to destroy itself once per call and its
    handle is closed once in all. *)
Theorem repeated_dispose_closes_once (Base : Type) (super_dispose : Base -> result Base)
        (n : nat) (w : SocketMessageWriter Base) :
  (forall b : Base, exists b', super_dispose b = Ok b') ->
  destroyed (socket w) = false ->
  exists w',
    dispose_times super_dispose (S n) w = Ok w' /\
    handle_closes (socket w') = S (handle_closes (socket w)) /\
    destroy_calls (socket w') = S n + destroy_calls (socket w) /\
    destroyed (socket w') = true.
Proof.
  intros Hsuper Hopen. cbn [dispose_times]. unfold dispose.
  destruct (Hsuper (base w)) as (b1 & H1). rewrite H1.
  destruct (dispose_times_destroyed Base super_dispose n
              {| base := b1; socket := socket_destroy (socket w) |} Hsuper eq_refl)
    as (w' & Hrun & Hc & Hn & Hd).
  exists w'. cbn [socket socket_destroy handle_closes destroy_calls] in Hc, Hn.
  rewrite Hopen in Hc. repeat split; [exact Hrun | exact Hc | lia | exact Hd].
Qed.

Lemma repeated_dispose_closes_once_witness :
  exists w',
    dispose_times emitters_dispose 5 live_writer = Ok w' /\
    handle_closes (socket w') = 1 /\
    destroy_calls (socket w') = 5 /\
    destroyed (socket w') = true.
Proof.
  apply (repeated_dispose_closes_once Emitters emitters_dispose 4 live_writer).
  - intros b. eexists. reflexivity.
  - reflexivity.
Defined.

End StreamRuns.

(** ** Connection factory: edges and composition *)

Section FactoryRuns.
Import JS Factory.

(** Given [undefined] or [null] as input, or as output next to an input
    object, [createMessageConnection] throws a [TypeError] from the member
    probe and never reaches the common constructor. *)
Theorem factory_throws_on_missing_stream
        (MessageConnection : Type)
        (_createMessageConnection :
           MessageReader -> MessageWriter -> value -> value -> MessageConnection)
        (NullLogger : value) (ConnectionStrategy_is : value -> bool)
        (StreamMessageWriter_throws : value -> option value)
        (other logger options : value) (input_members : list (string * value)) :
  let create := createMessageConnection MessageConnection _createMessageConnection
                  NullLogger ConnectionStrategy_is StreamMessageWriter_throws in
  create VUndefined other logger options = Throw TypeError /\
  create VNull other logger options = Throw TypeError /\
  create (VObject input_members) VUndefined logger options = Throw TypeError /\
  create (VObject input_members) VNull logger options = Throw TypeError.
Proof.
  intros create. subst create. unfold createMessageConnection.
  rewrite isMessageReader_object. repeat split.
Qed.

(** With the node entry's [createMessageConnection] as the function that
    [createProtocolConnection] delegates to, the strategy is normalised
    twice, and the result is the one of calling [createMessageConnection]
    directly, provided the wrapping structure is not itself taken for a
    strategy. *)
Theorem protocol_connection_over_node_factory
        (MessageConnection : Type)
        (_createMessageConnection :
           MessageReader -> MessageWriter -> value -> value -> MessageConnection)
        (NullLogger : value) (ConnectionStrategy_is : value -> bool)
        (StreamMessageWriter_throws : value -> option value)
        (input output logger options : value) :
  ConnectionStrategy_is (as_ConnectionOptions options) = false ->
  createProtocolConnection _
    (createMessageConnection MessageConnection _createMessageConnection
       NullLogger ConnectionStrategy_is StreamMessageWriter_throws)
    ConnectionStrategy_is input output logger options =
  createMessageConnection MessageConnection _createMessageConnection
    NullLogger ConnectionStrategy_is StreamMessageWriter_throws
    input output logger options.
Proof.
  intros Hwrapped. unfold createProtocolConnection, createMessageConnection.
  destruct (ConnectionStrategy_is options) eqn:His.
  - rewrite Hwrapped. reflexivity.
  - rewrite His. reflexivity.
Qed.

Lemma protocol_connection_over_node_factory_witness :
  createProtocolConnection _
    (createMessageConnection _ (fun r w l o => (r, w, l, o)) noop_logger
       has_cancelUndispatched throws_without_on)
    has_cancelUndispatched sample_reader sample_writable VUndefined sample_strategy =
  createMessageConnection _ (fun r w l o => (r, w, l, o)) noop_logger
    has_cancelUndispatched throws_without_on
    sample_reader sample_writable VUndefined sample_strategy.
Proof.
  apply (protocol_connection_over_node_factory _ (fun r w l o => (r, w, l, o))
           noop_logger has_cancelUndispatched throws_without_on
           sample_reader sample_writable VUndefined sample_strategy).
  reflexivity.
Defined.

End FactoryRuns.
